(** * Schema reconciliation of the PostgreSQL record store (skydb/pq/schema.go)

  A shallow embedding of [Extend], [RenameSchema], [DeleteSchema],
  [GetSchema], [remoteColumnTypes] and the DDL builders, with the schema
  cache of the connection and the database behind an interface. *)

From Stdlib Require Import Ascii.
From stdpp Require Import base option strings list gmap fin_maps.

Open Scope string_scope.
Open Scope list_scope.

(** ** The semantic types of package skydb *)

Module skydb.

(** Modelled from the spec: the tags of [skydb.DataType], which package
    skydb declares; the data model lists them. *)
Inductive DataType :=
| TypeString | TypeNumber | TypeInteger | TypeBoolean | TypeDateTime
| TypeJSON | TypeACL | TypeLocation | TypeSequence | TypeAsset
| TypeReference.

#[global] Instance DataType_eq_dec : EqDecision DataType.
Proof. solve_decision. Defined.

(** [skydb.FieldType]: the tag, and the record type referred to. A
    [FieldType{}] literal has the empty string there (unset). *)
Record FieldType := mkFieldType { Type_ : DataType; ReferenceType : string }.

#[global] Instance FieldType_eq_dec : EqDecision FieldType.
Proof. solve_decision. Defined.

(** Modelled from the spec: [DataType.IsNumberCompatibleType] of package
    skydb; Number, Integer and Sequence are interchangeable for conflict
    purposes. *)
Definition IsNumberCompatibleType (t : DataType) : bool :=
  match t with
  | TypeNumber | TypeInteger | TypeSequence => true
  | _ => false
  end.

(** [skydb.RecordSchema] is a Go map: [None] is the nil map. *)
Abbreviation RecordSchema := (option (gmap string FieldType)).

(** [len(m)] and [m[key]] (with its [ok]) also work on a nil map. *)
Definition len (m : RecordSchema) : nat := from_option size 0 m.
Definition index (m : RecordSchema) (key : string) : option FieldType :=
  m ≫= (λ fields, fields !! key).

End skydb.

Import skydb.

(** ** Go strings *)

Module gostrings.

Fixpoint strip_prefix (prefix s : string) : option string :=
  match prefix, s with
  | EmptyString, _ => Some s
  | String a prefix', String b s' =>
      if Ascii.eqb a b then strip_prefix prefix' s' else None
  | String _ _, EmptyString => None
  end.

(** [strings.TrimPrefix]: [s] without the leading [prefix], or [s]. *)
Definition TrimPrefix (s prefix : string) : string :=
  default s (strip_prefix prefix s).

Fixpoint strip_suffix (suffix s : string) : option string :=
  if decide (s = suffix) then Some EmptyString
  else match s with
       | EmptyString => None
       | String a s' => String a <$> strip_suffix suffix s'
       end.

(** [strings.TrimSuffix]: [s] without the trailing [suffix], or [s]. *)
Definition TrimSuffix (s suffix : string) : string :=
  default s (strip_suffix suffix s).

(** Whether the byte [_] occurs in [s]. *)
Fixpoint has_underscore (s : string) : bool :=
  match s with
  | EmptyString => false
  | String a s' => if Ascii.eqb a "_"%char then true else has_underscore s'
  end.

(** [buf.Truncate(buf.Len() - 1)]: drop the last byte. *)
Fixpoint drop_last (s : string) : string :=
  match s with
  | EmptyString => EmptyString
  | String _ EmptyString => EmptyString
  | String a s' => String a (drop_last s')
  end.

End gostrings.

(** ** Errors *)

(** The values of Go's [error] that this file produces or passes on. The
  [fmt.Errorf] ones keep their arguments instead of the formatted text. *)
Inductive error :=
| sql_ErrNoRows
| driver_error (msg : string)
| failed_to_create_table (cause : error)
| failed_to_alter_table (cause : error)
| conflicting_schema (remote desired : FieldType)
| received_unknown_data_type (pqType columnName : string).

#[global] Instance error_eq_dec : EqDecision error.
Proof. solve_decision. Defined.

(** ** The database behind the connection *)

(** What a query hands back: an error, or rows each of which [Scan]s to a
  value or fails to. *)
Abbreviation Rows A := (error + list (error + A))%type.

(** The four catalog queries of [remoteColumnTypes] and [getSequences], and
  [Exec], against a database in state [B]. A statement may change the
  state whether it fails or not. *)
Class Driver (B : Type) := {
select_oid : B → string → string → error + Z;
select_columns : B → Z → Rows (string * string);
select_sequences : B → string → string → Rows string;
select_foreign_keys : B → string → string → Rows (string * string);
exec_stmt : B → string → B * option error;
}.

(** What package pq declares outside schema.go: the schema and table names
  of the database handle, [pq.QuoteIdentifier] of lib/pq, the native type
  names and [pqDataType]. *)
Class Naming := {
schemaName : string;
tableName : string → string;
QuoteIdentifier : string → string;
TypeString : string;
TypeNumber : string;
TypeTimestamp : string;
TypeBoolean : string;
TypeJSON : string;
TypeLocation : string;
TypeInteger : string;
pqDataType : DataType → string;
}.

(** What reached the database, in order. *)
Inductive Query :=
| QueryOid (relname nspname : string)
| QueryColumns (oid : Z)
| QuerySequences (pattern nspname : string)
| QueryForeignKeys (schema table : string)
| QueryTables (schema : string).

Inductive Event :=
| Queried (q : Query)
| Executed (stmt : string).

#[global] Instance Query_eq_dec : EqDecision Query.
Proof. solve_decision. Defined.
#[global] Instance Event_eq_dec : EqDecision Event.
Proof. solve_decision. Defined.

(** The connection [db.c]: its schema cache [RecordSchema], the database it
  talks to, and the journal of what it sent. *)
Record conn (B : Type) := mkConn {
RecordSchema : gmap string skydb.RecordSchema;
database : B;
journal : list Event;
}.
Arguments mkConn {B} _ _ _.
Arguments RecordSchema {B} _.
Arguments database {B} _.
Arguments journal {B} _.

(** The statements that were executed, without the queries. *)
Definition executed (evs : list Event) : list string :=
omap (λ ev, match ev with Executed stmt => Some stmt | Queried _ => None end) evs.

Section Schema.

Context {B : Type} {driver : Driver B} {naming : Naming}.

Abbreviation conn := (conn B).

(** *** Talking to the database *)

Definition asked (q : Query) (c : conn) : conn :=
  mkConn (RecordSchema c) (database c) (journal c ++ [Queried q]).

Definition Exec (stmt : string) (c : conn) : option error * conn :=
  let '(b, err) := exec_stmt (database c) stmt in
  (err, mkConn (RecordSchema c) b (journal c ++ [Executed stmt])).

Definition cache_store (recordType : string) (schema : skydb.RecordSchema)
    (c : conn) : conn :=
  mkConn (<[recordType := schema]> (RecordSchema c)) (database c) (journal c).

Definition cache_delete (recordType : string) (c : conn) : conn :=
  mkConn (delete recordType (RecordSchema c)) (database c) (journal c).

(** [c'] is [c] after some catalog queries and nothing else. *)
Definition only_queried (c c' : conn) : Prop :=
  RecordSchema c' = RecordSchema c ∧ database c' = database c ∧
  ∃ qs, journal c' = journal c ++ (Queried <$> qs).

(** *** DDL builders *)

Definition createTableStmt (tableName : string) : string :=
  "
CREATE TABLE " +:+ tableName +:+ " (
    _id text,
    _database_id text,
    _owner_id text,
    _access jsonb,
    _created_at timestamp without time zone NOT NULL,
    _created_by text,
    _updated_at timestamp without time zone NOT NULL,
    _updated_by text,
    PRIMARY KEY(_id, _database_id, _owner_id),
    UNIQUE (_id)
);
".

Definition CreateTriggerStmt (tablename : string) : string :=
  "CREATE TRIGGER trigger_notify_record_change
    AFTER INSERT OR UPDATE OR DELETE ON " +:+ tablename +:+ " FOR EACH ROW
    EXECUTE PROCEDURE public.notify_record_change();
".

Definition createTable (recordType : string) (c : conn) : option error * conn :=
  let tablename := tableName recordType in
  let '(err, c1) := Exec (createTableStmt tablename) c in
  match err with
  | Some e => (Some e, c1)
  | None => Exec (CreateTriggerStmt tablename) c1
  end.

(** The name [fmt.Sprintf] builds for a foreign-key constraint. *)
Definition foreignKeyName (localCol referent remoteCol : string) : string :=
  "fk_" +:+ localCol +:+ "_" +:+ referent +:+ "_" +:+ remoteCol.

Definition writeForeignKeyConstraint (buf localCol referent remoteCol : string)
    : string :=
  buf +:+ "ADD CONSTRAINT "
      +:+ QuoteIdentifier (foreignKeyName localCol referent remoteCol)
      +:+ " FOREIGN KEY ("
      +:+ QuoteIdentifier localCol
      +:+ ") REFERENCES "
      +:+ tableName referent
      +:+ " ("
      +:+ QuoteIdentifier remoteCol
      +:+ "),".

Definition addColumn (buf : string) (entry : string * FieldType) : string :=
  let '(column, schema) := entry in
  let buf := buf +:+ "ADD " +:+ QuoteIdentifier column +:+ " "
                 +:+ pqDataType (Type_ schema) +:+ "," in
  match Type_ schema with
  | TypeAsset => writeForeignKeyConstraint buf column "_asset" "id"
  | TypeReference =>
      writeForeignKeyConstraint buf column (ReferenceType schema) "_id"
  | _ => buf
  end.

(** [entries] is the order in which [range] walks the staged columns. *)
Definition addColumnStmt (recordType : string)
    (entries : list (string * FieldType)) : string :=
  gostrings.drop_last
    (foldl addColumn ("ALTER TABLE " +:+ tableName recordType +:+ " ") entries).

(** *** Introspection *)

(** The loop of [getSequences] over the rows. *)
Fixpoint scanSequences (recordType : string) (rows : list (error + string))
    (seqList : list string) : list string * option error :=
  match rows with
  | [] => (seqList, None)
  | inl err :: _ => ([], Some err)
  | inr relname :: rows =>
      let relname := gostrings.TrimPrefix relname (recordType +:+ "_") in
      let relname := gostrings.TrimSuffix relname "_seq" in
      scanSequences recordType rows (seqList ++ [relname])
  end.

Definition getSequences (recordType : string) (c : conn)
    : (list string * option error) * conn :=
  let pattern := recordType +:+ "\_%\_seq" in
  let c := asked (QuerySequences pattern schemaName) c in
  match select_sequences (database c) pattern schemaName with
  | inl err => (([], Some err), c)
  | inr rows =>
      (scanSequences recordType rows [], c)
  end.

(** The case constants of the switch below; Go compiles a switch only when
    its constants differ. *)
Definition native_types : list string :=
  [TypeString; TypeNumber; TypeTimestamp; TypeBoolean; TypeJSON; TypeLocation;
   TypeInteger].

(** The switch over the native type of a column: the tag, or [None] in the
    default case. *)
Definition columnType (columnName pqType : string) : option DataType :=
  if decide (pqType = TypeString) then Some skydb.TypeString
  else if decide (pqType = TypeNumber) then Some skydb.TypeNumber
  else if decide (pqType = TypeTimestamp) then Some skydb.TypeDateTime
  else if decide (pqType = TypeBoolean) then Some skydb.TypeBoolean
  else if decide (pqType = TypeJSON) then
    if decide (columnName = "_access") then Some skydb.TypeACL
    else Some skydb.TypeJSON
  else if decide (pqType = TypeLocation) then Some skydb.TypeLocation
  else if decide (pqType = TypeInteger) then Some skydb.TypeInteger
  else None.

(** STEP 2, the loop over the column rows: the type map and the integer
    columns so far, and the error that stopped the loop, if any. *)
Fixpoint scanColumns (rows : list (error + string * string))
    (typemap : gmap string FieldType) (integerColumns : list string)
    : gmap string FieldType * list string * option error :=
  match rows with
  | [] => (typemap, integerColumns, None)
  | inl err :: _ => (typemap, integerColumns, Some err)
  | inr (columnName, pqType) :: rows =>
      match columnType columnName pqType with
      | None =>
          (typemap, integerColumns,
           Some (received_unknown_data_type pqType columnName))
      | Some t =>
          scanColumns rows
            (<[columnName := mkFieldType t ""]> typemap)
            (if decide (t = skydb.TypeInteger)
             then integerColumns ++ [columnName] else integerColumns)
      end
  end.

(** STEP 2.1, the two loops once the sequences are known. *)
Definition sequenceMap (sequenceList : list string) : gmap string bool :=
  foldl (λ m perSeq, <[perSeq := true]> m) ∅ sequenceList.

Definition markSequence (sequences : gmap string bool)
    (typemap : gmap string FieldType) (perIntColumn : string)
    : gmap string FieldType :=
  match sequences !! perIntColumn with
  | Some _ =>
      let schema := default (mkFieldType skydb.TypeString "") (typemap !! perIntColumn) in
      <[perIntColumn := mkFieldType skydb.TypeSequence (ReferenceType schema)]> typemap
  | None => typemap
  end.

Definition convertSequences (recordType : string)
    (typemap : gmap string FieldType) (integerColumns : list string) (c : conn)
    : gmap string FieldType * option error * conn :=
  match integerColumns with
  | [] => (typemap, None, c)
  | _ :: _ =>
      let '((sequenceList, err), c) := getSequences recordType c in
      match err with
      | Some e => (typemap, Some e, c)
      | None =>
          (foldl (markSequence (sequenceMap sequenceList)) typemap integerColumns,
           None, c)
      end
  end.

(** STEP 3, the loop over the foreign-key rows. *)
Definition referenceType (referencedTable : string) : FieldType :=
  if decide (referencedTable = "_asset") then mkFieldType skydb.TypeAsset ""
  else mkFieldType skydb.TypeReference referencedTable.

Fixpoint scanReferences (refs : list (error + string * string))
    (typemap : gmap string FieldType)
    : gmap string FieldType * option error :=
  match refs with
  | [] => (typemap, None)
  | inl err :: _ => (typemap, Some err)
  | inr (primaryColumn, referencedTable) :: refs =>
      scanReferences refs (<[primaryColumn := referenceType referencedTable]> typemap)
  end.

(** The body of [remoteColumnTypes] after the cache miss: the type map as
    the deferred function finds it, what is returned, and the connection. *)
Definition introspect (recordType : string) (c : conn)
    : gmap string FieldType * (error + skydb.RecordSchema) * conn :=
  let typemap : gmap string FieldType := ∅ in
  (* STEP 1 *)
  let c := asked (QueryOid recordType schemaName) c in
  match select_oid (database c) recordType schemaName with
  | inl err =>
      if decide (err = sql_ErrNoRows) then (typemap, inr None, c)
      else (typemap, inl err, c)
  | inr oid =>
      (* STEP 2 *)
      let c := asked (QueryColumns oid) c in
      match select_columns (database c) oid with
      | inl err => (typemap, inl err, c)
      | inr rows =>
          let '(typemap, integerColumns, err) := scanColumns rows typemap [] in
          match err with
          | Some e => (typemap, inl e, c)
          | None =>
              (* STEP 2.1 *)
              let '(typemap, err, c) :=
                convertSequences recordType typemap integerColumns c in
              match err with
              | Some e => (typemap, inl e, c)
              | None =>
                  (* STEP 3 *)
                  let c := asked (QueryForeignKeys schemaName recordType) c in
                  match select_foreign_keys (database c) schemaName recordType with
                  | inl err => (typemap, inl err, c)
                  | inr refs =>
                      let '(typemap, err) := scanReferences refs typemap in
                      match err with
                      | Some e => (typemap, inl e, c)
                      | None => (typemap, inr (Some typemap), c)
                      end
                  end
              end
          end
      end
  end.

(** A catalog query of the introspection of [recordType] fails with [err] on
    the database [b], with [typemap] built by then: the object-id lookup
    (other than by finding no row) or the column listing, with nothing built;
    the sequence listing (made when there is an integer column), with the
    columns typed; or the foreign-key listing, with the columns typed and the
    sequences marked. *)
Inductive catalog_query_fails (b : B) (recordType : string) (err : error)
    : gmap string FieldType → Prop :=
| oid_lookup_fails :
    select_oid b recordType schemaName = inl err →
    err ≠ sql_ErrNoRows →
    catalog_query_fails b recordType err ∅
| column_listing_fails oid :
    select_oid b recordType schemaName = inr oid →
    select_columns b oid = inl err →
    catalog_query_fails b recordType err ∅
| sequence_listing_fails oid rows typemap integerColumns :
    select_oid b recordType schemaName = inr oid →
    select_columns b oid = inr rows →
    scanColumns rows ∅ [] = (typemap, integerColumns, None) →
    integerColumns ≠ [] →
    select_sequences b (recordType +:+ "\_%\_seq") schemaName = inl err →
    catalog_query_fails b recordType err typemap
| foreign_key_listing_fails oid rows typemap integerColumns typemap' :
    select_oid b recordType schemaName = inr oid →
    select_columns b oid = inr rows →
    scanColumns rows ∅ [] = (typemap, integerColumns, None) →
    (integerColumns = [] ∧ typemap' = typemap ∨
     ∃ seqrows seqList,
       select_sequences b (recordType +:+ "\_%\_seq") schemaName = inr seqrows ∧
       scanSequences recordType seqrows [] = (seqList, None) ∧
       typemap' = foldl (markSequence (sequenceMap seqList)) typemap integerColumns) →
    select_foreign_keys b schemaName recordType = inl err →
    catalog_query_fails b recordType err typemap'.

Definition remoteColumnTypes (recordType : string) (c : conn)
    : (error + skydb.RecordSchema) * conn :=
  (* STEP 0 *)
  match RecordSchema c !! recordType with
  | Some schema => (inr schema, c)
  | None =>
      let '(typemap, result, c) := introspect recordType c in
      (* the deferred function *)
      (result, cache_store recordType (Some typemap) c)
  end.

(** *** The operations on schemas *)

Definition isConflict (from to : FieldType) : bool :=
  if decide (Type_ from = Type_ to) then false
  else if IsNumberCompatibleType (Type_ from) && IsNumberCompatibleType (Type_ to)
  then false
  else true.

(** The loop of [Extend] over the desired schema, in the order [entries]:
    the columns to add, or the conflict that ends the call. *)
Fixpoint stageColumns (remoteRecordSchema : skydb.RecordSchema)
    (entries : list (string * FieldType))
    (updatingSchema : gmap string FieldType)
    : error + gmap string FieldType :=
  match entries with
  | [] => inr updatingSchema
  | (key, schema) :: entries =>
      match skydb.index remoteRecordSchema key with
      | None =>
          stageColumns remoteRecordSchema entries (<[key := schema]> updatingSchema)
      | Some remoteSchema =>
          if isConflict remoteSchema schema
          then inl (conflicting_schema remoteSchema schema)
          else stageColumns remoteRecordSchema entries updatingSchema
      end
  end.

(** Any order in which Go may walk a map. *)
Definition walks_maps (range : gmap string FieldType → list (string * FieldType))
    : Prop :=
  ∀ m, range m ≡ₚ map_to_list m.

(** [range] gives the order in which a [for ... range] walks a map; Go
    leaves it open, so the theorems take any order. *)
Definition Extend (range : gmap string FieldType → list (string * FieldType))
    (recordType : string) (recordSchema : gmap string FieldType) (c : conn)
    : option error * conn :=
  let '(result, c) := remoteColumnTypes recordType c in
  match result with
  | inl err => (Some err, c)
  | inr remoteRecordSchema =>
      let '(err, c) :=
        if decide (skydb.len remoteRecordSchema = 0)
        then createTable recordType c else (None, c) in
      match err with
      | Some e => (Some (failed_to_create_table e), c)
      | None =>
          match stageColumns remoteRecordSchema (range recordSchema) ∅ with
          | inl e => (Some e, c)
          | inr updatingSchema =>
              let '(err, c) :=
                if decide (0 < size updatingSchema)
                then Exec (addColumnStmt recordType (range updatingSchema)) c
                else (None, c) in
              match err with
              | Some e => (Some (failed_to_alter_table e), c)
              | None => (None, cache_delete recordType c)
              end
          end
      end
  end.

Definition RenameSchema (recordType oldName newName : string) (c : conn)
    : option error * conn :=
  let tableName := tableName recordType in
  let oldName := QuoteIdentifier oldName in
  let newName := QuoteIdentifier newName in
  let stmt := "ALTER TABLE " +:+ tableName +:+ " RENAME " +:+ oldName
                +:+ " TO " +:+ newName in
  let '(err, c) := Exec stmt c in
  match err with
  | Some e => (Some (failed_to_alter_table e), c)
  | None => (None, c)
  end.

Definition DeleteSchema (recordType columnName : string) (c : conn)
    : option error * conn :=
  let tableName := tableName recordType in
  let columnName := QuoteIdentifier columnName in
  let stmt := "ALTER TABLE " +:+ tableName +:+ " DROP " +:+ columnName in
  let '(err, c) := Exec stmt c in
  match err with
  | Some e => (Some (failed_to_alter_table e), c)
  | None => (None, c)
  end.

Definition GetSchema (recordType : string) (c : conn)
    : (error + skydb.RecordSchema) * conn :=
  let '(result, c) := remoteColumnTypes recordType c in
  match result with
  | inl err => (inl err, c)
  | inr remoteRecordSchema => (inr remoteRecordSchema, c)
  end.

End Schema.

(** ** Listing the record types *)

(** The query of [GetRecordSchemas] over information_schema.tables: the
    names of the tables of a schema that do not start with an underscore. *)
Class TableListing (B : Type) := {
  select_tables : B → string → Rows string;
}.

Section Listing.

Context {B : Type} {driver : Driver B} {listing : TableListing B} {naming : Naming}.

(** The loop of [GetRecordSchemas] over the rows, with the result map so
    far. *)
Fixpoint scanRecordSchemas (rows : list (error + string))
    (result : gmap string skydb.RecordSchema) (c : conn B)
    : (error + gmap string skydb.RecordSchema) * conn B :=
  match rows with
  | [] => (inr result, c)
  | inl err :: _ => (inl err, c)
  | inr recordType :: rows =>
      let '(schema, c) := GetSchema recordType c in
      match schema with
      | inl err => (inl err, c)
      | inr schema => scanRecordSchemas rows (<[recordType := schema]> result) c
      end
  end.

Definition GetRecordSchemas (c : conn B)
    : (error + gmap string skydb.RecordSchema) * conn B :=
  let c := asked (QueryTables schemaName) c in
  match select_tables (database c) schemaName with
  | inl err => (inl err, c)
  | inr rows => scanRecordSchemas rows ∅ c
  end.

End Listing.

(** The columns [Extend] has to add: the desired fields that the remote
    schema does not have. *)
Definition missing_columns (remoteRecordSchema : skydb.RecordSchema)
    (recordSchema : gmap string FieldType) : gmap string FieldType :=
  filter (λ entry, skydb.index remoteRecordSchema entry.1 = None) recordSchema.

(** ** A small database to run the code against *)

Module Example.

(** The double quote, which a string literal here does not spell. *)
Definition dquote : string := String (Ascii.ascii_of_nat 34) EmptyString.

(** Names as a deployment of the server has them; identifiers are put
    between double quotes (the names of the examples hold none themselves). *)
#[local] Instance naming : Naming := {|
  schemaName := "app_test";
  QuoteIdentifier name := dquote +:+ name +:+ dquote;
  tableName table :=
    dquote +:+ "app_test" +:+ dquote +:+ "." +:+ dquote +:+ table +:+ dquote;
  TypeString := "text";
  TypeNumber := "double precision";
  TypeTimestamp := "timestamp without time zone";
  TypeBoolean := "boolean";
  TypeJSON := "jsonb";
  TypeLocation := "geometry(Point)";
  TypeInteger := "integer";
  pqDataType t :=
    match t with
    | skydb.TypeString | skydb.TypeAsset | skydb.TypeReference => "text"
    | skydb.TypeNumber => "double precision"
    | skydb.TypeInteger => "integer"
    | skydb.TypeDateTime => "timestamp without time zone"
    | skydb.TypeBoolean => "boolean"
    | skydb.TypeJSON | skydb.TypeACL => "jsonb"
    | skydb.TypeLocation => "geometry(Point)"
    | skydb.TypeSequence => "serial UNIQUE"
    end;
|}.

(** A table of the catalog: its columns with their native types, the
    sequences whose names the pattern of [getSequences] selects, and its
    foreign keys as (column, referenced table). *)
Record Table := mkTable {
  oid : Z;
  attributes : list (string * string);
  sequences : list string;
  foreign_keys : list (string * string);
}.

(** The catalog of one namespace, with the queries that are made to fail. *)
Record Catalog := mkCatalog {
  relations : list (string * Table);
  faults : Query → option error;
}.

Definition healthy : Query → option error := λ _, None.

Definition find_table (relname : string) (b : Catalog) : option Table :=
  (λ r, snd (snd r)) <$> list_find (λ r, fst r = relname) (relations b).

Definition find_oid (o : Z) (b : Catalog) : option Table :=
  (λ r, snd (snd r)) <$> list_find (λ r, oid (snd r) = o) (relations b).

Definition answer {A} (b : Catalog) (q : Query) (rows : list A) : Rows A :=
  match faults b q with
  | Some err => inl err
  | None => inr (inr <$> rows)
  end.

(** The name between the quotes of a quoted identifier. *)
Definition unquote (quoted : string) : string :=
  match quoted with
  | EmptyString => EmptyString
  | String _ rest => gostrings.drop_last rest
  end.

Definition rename_column (old new : string) (t : Table) : Table :=
  mkTable (oid t)
    ((λ a, if decide (fst a = old) then (new, snd a) else a) <$> attributes t)
    (sequences t) (foreign_keys t).

Definition drop_column (name : string) (t : Table) : Table :=
  mkTable (oid t)
    (filter (λ a, fst a ≠ name) (attributes t))
    (sequences t) (foreign_keys t).

(** What a statement does to one table: a column is renamed or dropped when
    the statement is the ALTER TABLE that says so; any other statement
    leaves the table as it is. *)
Definition alter_table (stmt : string) (r : string * Table) : string * Table :=
  let '(relname, t) := r in
  let alter := "ALTER TABLE " +:+ tableName relname in
  (relname,
   foldl (λ t a,
      let column := QuoteIdentifier (fst a) in
      if decide (stmt = alter +:+ " DROP " +:+ column)
      then drop_column (fst a) t
      else match gostrings.strip_prefix (alter +:+ " RENAME " +:+ column +:+ " TO ") stmt with
           | Some new => rename_column (fst a) (unquote new) t
           | None => t
           end) t (attributes t)).

#[local] Instance driver : Driver Catalog := {|
  select_oid b relname nspname :=
    match faults b (QueryOid relname nspname) with
    | Some err => inl err
    | None =>
        match find_table relname b with
        | Some t => inr (oid t)
        | None => inl sql_ErrNoRows
        end
    end;
  select_columns b o :=
    answer b (QueryColumns o) (from_option attributes [] (find_oid o b));
  select_sequences b pattern nspname :=
    answer b (QuerySequences pattern nspname)
      (mjoin ((λ r, if decide (pattern = fst r +:+ "\_%\_seq")
                    then sequences (snd r) else []) <$> relations b));
  select_foreign_keys b schema table :=
    answer b (QueryForeignKeys schema table)
      (from_option foreign_keys [] (find_table table b));
  exec_stmt b stmt :=
    (mkCatalog (alter_table stmt <$> relations b) (faults b), None);
|}.

(** The tables whose names do not start with an underscore. *)
#[local] Instance listing : TableListing Catalog := {|
  select_tables b schema :=
    inr (inr <$> filter (λ relname, gostrings.strip_prefix "_" relname = None)
                   (relations b).*1);
|}.

(** A connection with an empty cache and an empty journal. *)
Definition connect (b : Catalog) : conn Catalog := mkConn ∅ b [].

(** The table [note] with the reserved columns and a text column. *)
Definition reserved : list (string * string) :=
  [("_id", "text"); ("_database_id", "text"); ("_owner_id", "text");
   ("_access", "jsonb"); ("_created_at", "timestamp without time zone");
   ("_created_by", "text"); ("_updated_at", "timestamp without time zone");
   ("_updated_by", "text")].

Definition note : Table :=
  mkTable 16385 (reserved ++ [("title", "text")]) [] [].

Definition note_db : Catalog := mkCatalog [("note", note)] healthy.

(** The same database when the server cannot be reached for the object-id
    lookup. *)
Definition unreachable : Query → option error :=
  λ q, match q with
       | QueryOid _ _ => Some (driver_error "connection reset by peer")
       | _ => None
       end.

Definition note_db_down : Catalog := mkCatalog [("note", note)] unreachable.

(** The same database when only the foreign-key listing fails. *)
Definition constraints_unreadable : Query → option error :=
  λ q, match q with
       | QueryForeignKeys _ _ =>
           Some (driver_error "permission denied for information_schema")
       | _ => None
       end.

Definition note_db_guarded : Catalog :=
  mkCatalog [("note", note)] constraints_unreadable.

(** The table [note] after its column [title] was dropped. *)
Definition note_without_title : Catalog :=
  mkCatalog [("note", mkTable 16385 reserved [] [])] healthy.

(** A table whose column [owner] has two foreign keys, and one whose integer
    column [author] has one; a table with a serial column [seq]. *)
Definition photo : Table :=
  mkTable 16390 (reserved ++ [("owner", "text")]) []
    [("owner", "_asset"); ("owner", "user")].

Definition post : Table :=
  mkTable 16395 (reserved ++ [("author", "integer")]) [] [("author", "user")].

Definition ticket : Table :=
  mkTable 16400 (reserved ++ [("seq", "integer"); ("weight", "integer")])
    ["ticket_seq_seq"] [].

Definition blog_db : Catalog :=
  mkCatalog [("photo", photo); ("post", post); ("ticket", ticket)] healthy.

(** A connection that cached the schema of [note] before [title] was
    dropped behind its back. *)
Definition stale : conn Catalog :=
  mkConn {[ "note" := Some {[ "title" := mkFieldType skydb.TypeString "" ]} ]}
    note_without_title [].

(** A database with a table that has a column of a native type the server
    does not know, listed after [note]. *)
Definition legacy : Table :=
  mkTable 16405 (reserved ++ [("payload", "bytea"); ("size", "integer")]) [] [].

Definition legacy_db : Catalog :=
  mkCatalog [("_asset", mkTable 16380 [("id", "text")] [] []);
             ("note", note); ("legacy", legacy)] healthy.

(** A catalog behind a role that may not run some statements: [refuses]
    gives the error of a statement that is refused. *)
Record Guarded := mkGuarded {
  catalog : Catalog;
  refuses : string → option error;
}.

#[local] Instance guarded_driver : Driver Guarded := {|
  select_oid b := select_oid (catalog b);
  select_columns b := select_columns (catalog b);
  select_sequences b := select_sequences (catalog b);
  select_foreign_keys b := select_foreign_keys (catalog b);
  exec_stmt b stmt :=
    match refuses b stmt with
    | Some err => (b, Some err)
    | None => (mkGuarded (fst (exec_stmt (catalog b) stmt)) (refuses b), None)
    end;
|}.

(** A role that may not run any statement, and one that may not create
    triggers. *)
Definition read_only : Guarded :=
  mkGuarded note_db (λ _, Some (driver_error "permission denied")).

Definition without_triggers : Guarded :=
  mkGuarded note_db
    (λ stmt, match gostrings.strip_prefix "CREATE TRIGGER" stmt with
             | Some _ =>
                 Some (driver_error "function notify_record_change does not exist")
             | None => None
             end).

Definition String_ : FieldType := mkFieldType skydb.TypeString "".
Definition Number_ : FieldType := mkFieldType skydb.TypeNumber "".

End Example.

(** ** Facts about the code, for any database *)

Section SchemaFacts.

Context {B : Type} {driver : Driver B} {naming : Naming}.

Implicit Types (c : conn B) (recordType key : string).
Implicit Types (typemap : gmap string FieldType) (remote : skydb.RecordSchema).

(** *** Queries leave the cache, the database and the executed statements alone *)

Lemma only_queried_refl c : only_queried c c.
Proof. repeat split. exists []. by rewrite app_nil_r. Qed.

Lemma only_queried_trans c1 c2 c3 :
  only_queried c1 c2 → only_queried c2 c3 → only_queried c1 c3.
Proof.
  intros (Hc & Hd & qs & Hj) (Hc' & Hd' & qs' & Hj').
  repeat split; [congruence..|].
  exists (qs ++ qs'). by rewrite Hj', Hj, fmap_app, <- app_assoc.
Qed.

Lemma only_queried_ask q c : only_queried c (asked q c).
Proof. repeat split. by exists [q]. Qed.

Lemma only_queried_asked q c c' :
  only_queried (asked q c) c' → only_queried c c'.
Proof. apply only_queried_trans, only_queried_ask. Qed.

Lemma executed_app evs evs' : executed (evs ++ evs') = executed evs ++ executed evs'.
Proof. unfold executed. apply omap_app. Qed.

Lemma executed_queries (qs : list Query) : executed (Queried <$> qs) = [].
Proof. induction qs as [|q qs IH]; [done|]. cbn. exact IH. Qed.

Lemma only_queried_executed c c' :
  only_queried c c' → executed (journal c') = executed (journal c).
Proof.
  intros (_ & _ & qs & ->).
  by rewrite executed_app, executed_queries, app_nil_r.
Qed.

Lemma getSequences_only_queried recordType c seqList err c' :
  getSequences recordType c = (seqList, err, c') → only_queried c c'.
Proof.
  unfold getSequences. intros H. eapply only_queried_asked.
  destruct (select_sequences _ _ _); inversion H; apply only_queried_refl.
Qed.

Lemma convertSequences_only_queried recordType typemap ints c typemap' err c' :
  convertSequences recordType typemap ints c = (typemap', err, c') →
  only_queried c c'.
Proof.
  unfold convertSequences. destruct ints as [|i ints].
  - intros [= _ _ <-]. apply only_queried_refl.
  - destruct (getSequences recordType c) as [[seqList e] c1] eqn:Hseq.
    apply getSequences_only_queried in Hseq.
    destruct e; intros [= _ _ <-]; exact Hseq.
Qed.

Lemma introspect_only_queried recordType c typemap result c' :
  introspect recordType c = (typemap, result, c') → only_queried c c'.
Proof.
  unfold introspect. intros H. eapply only_queried_asked.
  destruct (select_oid _ _ _) as [err|oid].
  { destruct (decide _); inversion H; apply only_queried_refl. }
  eapply only_queried_asked.
  destruct (select_columns _ _) as [err|rows].
  { inversion H; apply only_queried_refl. }
  destruct (scanColumns rows ∅ []) as [[tm ints] [e|]].
  { inversion H; apply only_queried_refl. }
  destruct (convertSequences _ _ _ _) as [[tm' e] c1] eqn:Hconv.
  apply convertSequences_only_queried in Hconv.
  destruct e.
  { inversion H; subst; exact Hconv. }
  eapply only_queried_trans; [exact Hconv|]. eapply only_queried_asked.
  destruct (select_foreign_keys _ _ _) as [err|refs].
  { inversion H; apply only_queried_refl. }
  destruct (scanReferences refs tm') as [tm'' [e|]];
    inversion H; apply only_queried_refl.
Qed.

(** *** The cache lookup and the deferred store of [remoteColumnTypes] *)

Lemma remoteColumnTypes_hit recordType c schema :
  RecordSchema c !! recordType = Some schema →
  remoteColumnTypes recordType c = (inr schema, c).
Proof. unfold remoteColumnTypes. by intros ->. Qed.

Lemma remoteColumnTypes_miss recordType c typemap result c1 :
  RecordSchema c !! recordType = None →
  introspect recordType c = (typemap, result, c1) →
  remoteColumnTypes recordType c = (result, cache_store recordType (Some typemap) c1).
Proof. unfold remoteColumnTypes. by intros -> ->. Qed.

Lemma remoteColumnTypes_inv recordType c result c' :
  remoteColumnTypes recordType c = (result, c') →
  (∃ schema, RecordSchema c !! recordType = Some schema ∧
             result = inr schema ∧ c' = c) ∨
  (∃ typemap c1, RecordSchema c !! recordType = None ∧
                 introspect recordType c = (typemap, result, c1) ∧
                 c' = cache_store recordType (Some typemap) c1).
Proof.
  unfold remoteColumnTypes.
  destruct (RecordSchema c !! recordType) as [schema|] eqn:Hc.
  - intros [= <- <-]. left. by exists schema.
  - destruct (introspect recordType c) as [[typemap r] c1] eqn:Hi.
    intros [= <- <-]. right. by exists typemap, c1.
Qed.

Lemma remoteColumnTypes_entry recordType c result c' :
  remoteColumnTypes recordType c = (result, c') →
  is_Some (RecordSchema c' !! recordType).
Proof.
  intros [(schema & Hc & _ & ->)|(typemap & c1 & _ & _ & ->)]%remoteColumnTypes_inv.
  - by exists schema.
  - exists (Some typemap). cbn. apply lookup_insert_eq.
Qed.

Lemma remoteColumnTypes_executed recordType c result c' :
  remoteColumnTypes recordType c = (result, c') →
  executed (journal c') = executed (journal c).
Proof.
  intros [(schema & _ & _ & ->)|(typemap & c1 & _ & Hi & ->)]%remoteColumnTypes_inv;
    [done|].
  apply introspect_only_queried, only_queried_executed in Hi. exact Hi.
Qed.

(** What a successful introspection went through. *)
Lemma introspect_success recordType c typemap0 typemap c' :
  introspect recordType c = (typemap0, inr (Some typemap), c') →
  typemap0 = typemap ∧
  ∃ oid rows typemap1 integerColumns typemap2 c1 c2 refs,
    select_oid (database c) recordType schemaName = inr oid ∧
    select_columns (database c) oid = inr rows ∧
    scanColumns rows ∅ [] = (typemap1, integerColumns, None) ∧
    convertSequences recordType typemap1 integerColumns c1 = (typemap2, None, c2) ∧
    database c1 = database c ∧
    select_foreign_keys (database c) schemaName recordType = inr refs ∧
    scanReferences refs typemap2 = (typemap, None).
Proof.
  unfold introspect. cbn.
  destruct (select_oid _ _ _) as [err|oid] eqn:Hoid.
  { destruct (decide _); intros [=]. }
  destruct (select_columns _ _) as [err|rows] eqn:Hrows; [intros [=]|].
  destruct (scanColumns rows ∅ []) as [[tm1 ints] [e|]] eqn:Hscan; [intros [=]|].
  destruct (convertSequences _ _ _ _) as [[tm2 e] c2] eqn:Hconv.
  destruct e; [intros [=]|].
  pose proof (convertSequences_only_queried _ _ _ _ _ _ _ Hconv) as (_ & Hd & _).
  cbn in Hd. cbn. rewrite Hd.
  destruct (select_foreign_keys _ _ _) as [err|refs] eqn:Hrefs; [intros [=]|].
  destruct (scanReferences refs tm2) as [tm3 [e|]] eqn:Href; intros [= <- <- <-].
  split; [done|]. by eexists oid, rows, tm1, ints, tm2, _, c2, refs.
Qed.

(** What a call returns without error is what the cache holds afterwards,
    but for the nil of a missing table, which is cached as the empty map. *)
Lemma remoteColumnTypes_returns_entry recordType c schema c' :
  remoteColumnTypes recordType c = (inr schema, c') →
  RecordSchema c' !! recordType = Some schema ∨
  (schema = None ∧ RecordSchema c' !! recordType = Some (Some ∅)).
Proof.
  intros [(cached & Hhit & [= <-] & ->)|(typemap & c1 & _ & Hi & ->)]%remoteColumnTypes_inv;
    [by left|].
  cbn. rewrite lookup_insert_eq. destruct schema as [tm|].
  - apply introspect_success in Hi as [-> _]. by left.
  - right. split; [done|]. revert Hi. unfold introspect. cbn.
    destruct (select_oid _ _ _) as [err|oid].
    { destruct (decide _); by intros [= <- _]. }
    destruct (select_columns _ _) as [err|rows]; [intros [=]|].
    destruct (scanColumns rows ∅ []) as [[tm1 ints] [e|]]; [intros [=]|].
    destruct (convertSequences _ _ _ _) as [[tm2 [e|]] c2]; [intros [=]|].
    destruct (select_foreign_keys _ _ _) as [err|refs]; [intros [=]|].
    by destruct (scanReferences refs tm2) as [tm3 [e|]]; intros [=].
Qed.

(** *** Statements leave the cache alone *)

Lemma Exec_cache stmt c err c' :
  Exec stmt c = (err, c') → RecordSchema c' = RecordSchema c.
Proof.
  unfold Exec. destruct (exec_stmt _ _) as [b e]. by intros [= _ <-].
Qed.

Lemma Exec_journal stmt c err c' :
  Exec stmt c = (err, c') → journal c' = journal c ++ [Executed stmt].
Proof.
  unfold Exec. destruct (exec_stmt _ _) as [b e]. by intros [= _ <-].
Qed.

Lemma createTable_cache recordType c err c' :
  createTable recordType c = (err, c') → RecordSchema c' = RecordSchema c.
Proof.
  unfold createTable.
  destruct (Exec (createTableStmt _) c) as [[e|] c1] eqn:H1.
  - intros [= _ <-]. by eapply Exec_cache.
  - intros H2%Exec_cache. apply Exec_cache in H1. congruence.
Qed.

(** C8. When the record type is not cached and the object-id lookup finds
    no row, introspection returns the nil schema and no error, and so does
    [GetSchema]. *)
Theorem missing_table_is_nil_without_error recordType c :
  RecordSchema c !! recordType = None →
  select_oid (database c) recordType schemaName = inl sql_ErrNoRows →
  ∃ c', remoteColumnTypes recordType c = (inr None, c') ∧
        GetSchema recordType c = (inr None, c').
Proof.
  intros Hmiss Hoid.
  assert (∃ c1, introspect recordType c = (∅, inr None, c1)) as [c1 Hi].
  { unfold introspect. cbn. rewrite Hoid. rewrite decide_True by done. eauto. }
  eexists. unfold GetSchema.
  rewrite (remoteColumnTypes_miss _ _ _ _ _ Hmiss Hi). done.
Qed.

(** C10. For a record type with no table and no cache entry, introspection
    returns nil and leaves the empty, non-nil schema in the cache; from then
    on, whatever the database has become, any connection state that still
    holds that entry answers with the empty schema and is left as it was:
    no query is added to the journal. *)
Theorem missing_table_is_cached_as_empty recordType c :
  RecordSchema c !! recordType = None →
  select_oid (database c) recordType schemaName = inl sql_ErrNoRows →
  ∃ c1,
    remoteColumnTypes recordType c = (inr None, c1) ∧
    RecordSchema c1 !! recordType = Some (Some ∅) ∧
    ∀ c2, RecordSchema c2 !! recordType = RecordSchema c1 !! recordType →
          remoteColumnTypes recordType c2 = (inr (Some ∅), c2).
Proof.
  intros Hmiss Hoid.
  assert (∃ c1, introspect recordType c = (∅, inr None, c1)) as [c1 Hi].
  { unfold introspect. cbn. rewrite Hoid. rewrite decide_True by done. eauto. }
  eexists. split; [exact (remoteColumnTypes_miss _ _ _ _ _ Hmiss Hi)|].
  assert (RecordSchema (cache_store recordType (Some ∅) c1) !! recordType
          = Some (Some ∅)) as Hentry by (cbn; apply lookup_insert_eq).
  split; [exact Hentry|].
  intros c2 Hc2. apply remoteColumnTypes_hit. by rewrite Hc2.
Qed.

(** C2, what the code does instead. When a catalog query of the
    introspection fails, [remoteColumnTypes] returns that error, and the
    deferred store has put an entry for the record type in the cache all the
    same: the type map as far as it was built, empty after a failed object-id
    lookup or column listing. *)
Theorem failed_introspection_is_cached recordType c err typemap :
  RecordSchema c !! recordType = None →
  catalog_query_fails (database c) recordType err typemap →
  ∃ c',
    remoteColumnTypes recordType c = (inl err, c') ∧
    RecordSchema c' = <[recordType := Some typemap]> (RecordSchema c).
Proof.
  intros Hmiss Hfail.
  assert (∃ c1, introspect recordType c = (typemap, inl err, c1)) as (c1 & Hi).
  { unfold introspect. cbn.
    destruct Hfail as [Hoid Hne|oid Hoid Hcol|oid rows tm ints Hoid Hcol Hscan Hints Hseq
                      |oid rows tm ints tm' Hoid Hcol Hscan Hseq Hfk].
    - rewrite Hoid. rewrite decide_False by done. eauto.
    - rewrite Hoid, Hcol. eauto.
    - rewrite Hoid, Hcol, Hscan.
      destruct ints as [|i ints]; [done|].
      unfold convertSequences, getSequences. cbn. rewrite Hseq. eauto.
    - rewrite Hoid, Hcol, Hscan.
      destruct (convertSequences _ _ _ _) as [[tm2 e] c2] eqn:Hconv.
      pose proof (convertSequences_only_queried _ _ _ _ _ _ _ Hconv) as (_ & Hd & _).
      assert (e = None ∧ tm2 = tm') as [-> ->].
      { revert Hconv. unfold convertSequences.
        destruct Hseq as [[-> ->]|(seqrows & seqList & Hseq & Hscans & ->)];
          [by intros [= <- <-]|].
        destruct ints; [by intros [= <- <-]|].
        unfold getSequences. cbn. rewrite Hseq, Hscans. by intros [= <- <-]. }
      cbn in Hd. cbn. rewrite Hd, Hfk. eauto. }
  exists (cache_store recordType (Some typemap) c1).
  split; [exact (remoteColumnTypes_miss _ _ _ _ _ Hmiss Hi)|].
  apply introspect_only_queried in Hi as (Hc & _). cbn. by rewrite Hc.
Qed.

(** *** [Extend] *)

Lemma walks_maps_lookup range m key schema :
  walks_maps range → (key, schema) ∈ range m ↔ m !! key = Some schema.
Proof. intros Hr. rewrite (Hr m). apply elem_of_map_to_list. Qed.



(** With every desired field there and compatible, nothing is staged. *)
Lemma stageColumns_nothing remote entries updatingSchema :
  (∀ key to, (key, to) ∈ entries →
     ∃ from, skydb.index remote key = Some from ∧ isConflict from to = false) →
  stageColumns remote entries updatingSchema = inr updatingSchema.
Proof.
  induction entries as [|[k schema] entries IH]; intros Hall; [done|].
  cbn. destruct (Hall k schema) as (from & -> & ->); [left|].
  apply IH. intros key to Hin. apply Hall. by right.
Qed.

Lemma len_index remote key from :
  skydb.index remote key = Some from → skydb.len remote ≠ 0.
Proof.
  destruct remote as [fields|]; [|done]. cbn. intros Hk Hsize.
  apply map_size_empty_iff in Hsize. subst. by rewrite lookup_empty in Hk.
Qed.

Lemma stageColumns_of_empty remote entries updatingSchema :
  skydb.len remote = 0 →
  ∃ staged, stageColumns remote entries updatingSchema = inr staged.
Proof.
  intros Hlen. revert updatingSchema.
  induction entries as [|[key schema] entries IH]; intros acc; cbn; [by eexists|].
  destruct (skydb.index remote key) as [from|] eqn:Hkey; [|apply IH].
  by apply len_index in Hkey.
Qed.

(** A successful [Extend] leaves the cache as it was before the call, without
    the entry of the record type. *)
Lemma Extend_success_cache range recordType (recordSchema : gmap string FieldType)
    c c' :
  Extend range recordType recordSchema c = (None, c') →
  RecordSchema c' = delete recordType (RecordSchema c).
Proof.
  unfold Extend.
  destruct (remoteColumnTypes recordType c) as [[e|remote] c1] eqn:Hremote;
    [intros [=]|].
  assert (delete recordType (RecordSchema c1) = delete recordType (RecordSchema c))
    as Hc1.
  { apply map_eq. intros other. destruct (decide (other = recordType)) as [->|Hne].
    - by rewrite !lookup_delete_eq.
    - rewrite !lookup_delete_ne by done.
      apply remoteColumnTypes_inv in Hremote
        as [(schema & _ & _ & ->)|(typemap & c0 & _ & Hi & ->)]; [done|].
      apply introspect_only_queried in Hi as (Hc & _).
      cbn. rewrite Hc. by apply lookup_insert_ne. }
  destruct (if decide (skydb.len remote = 0) then createTable recordType c1
            else (None, c1)) as [e2 c2] eqn:Hcreate.
  assert (RecordSchema c2 = RecordSchema c1) as Hc2.
  { revert Hcreate.
    destruct (decide (skydb.len remote = 0)); [apply createTable_cache|by intros [= _ <-]]. }
  destruct e2 as [e2|]; [intros [=]|].
  destruct (stageColumns remote (range recordSchema) ∅) as [e3|updatingSchema];
    [intros [=]|].
  destruct (if decide (0 < size updatingSchema) then _ else _) as [e4 c4] eqn:Halter.
  assert (RecordSchema c4 = RecordSchema c2) as Hc4.
  { revert Halter.
    destruct (decide (0 < size updatingSchema)); [apply Exec_cache|by intros [= _ <-]]. }
  destruct e4 as [e4|]; intros [= <-].
  cbn. by rewrite Hc4, Hc2.
Qed.

(** C3, as the code has it. When [Extend] returns without error the cache is
    the one before the call without the entry of the record type. When
    [Extend] returns a schema conflict for the schema that introspection
    handed to it, the connection is as introspection left it: the entry of
    the record type is there and holds that schema. *)
Theorem Extend_drops_entry_on_success_only range recordType
    (recordSchema : gmap string FieldType) c err c' :
  Extend range recordType recordSchema c = (err, c') →
  (err = None → RecordSchema c' = delete recordType (RecordSchema c)) ∧
  (∀ remote c1 from to,
     remoteColumnTypes recordType c = (inr remote, c1) →
     err = Some (conflicting_schema from to) →
     c' = c1 ∧ RecordSchema c' !! recordType = Some remote).
Proof.
  intros Hextend. split.
  { intros ->. by eapply Extend_success_cache. }
  intros remote c1 from to Hremote ->. revert Hextend.
  unfold Extend. rewrite Hremote.
  destruct (decide (skydb.len remote = 0)) as [Hempty|Hsome].
  - destruct (createTable recordType c1) as [[e2|] c2]; [intros [=]|].
    destruct (stageColumns_of_empty remote (range recordSchema) ∅ Hempty)
      as [staged ->].
    destruct (if decide (0 < size staged) then _ else _) as [[e4|] c4];
      intros [=].
  - destruct (stageColumns remote (range recordSchema) ∅) as [e3|updatingSchema].
    + intros [= _ <-]. split; [done|].
      destruct (remoteColumnTypes_returns_entry _ _ _ _ Hremote)
        as [Hentry|[-> _]]; [done|]. by destruct Hsome.
    + destruct (if decide (0 < size updatingSchema) then _ else _) as [[e4|] c4];
        intros [=].
Qed.


(** C5, as the code has it. After a first [Extend] that succeeded the cache
    has no entry for the record type, so a second call asks the catalog; when
    the catalog then reports a schema that is not empty and has every desired
    field with the same or a numeric-compatible type, the second call
    succeeds and executes no statement. *)
Theorem Extend_again_executes_nothing range range' recordType
    (recordSchema : gmap string FieldType) c c1 :
  walks_maps range' →
  Extend range recordType recordSchema c = (None, c1) →
  RecordSchema c1 !! recordType = None ∧
  ∀ typemap c2,
    introspect recordType c1 = (typemap, inr (Some typemap), c2) →
    typemap ≠ ∅ →
    (∀ key to, recordSchema !! key = Some to →
       ∃ from, typemap !! key = Some from ∧ isConflict from to = false) →
    ∃ c3, Extend range' recordType recordSchema c1 = (None, c3) ∧
          executed (journal c3) = executed (journal c1).
Proof.
  intros Hrange Hfirst.
  assert (RecordSchema c1 !! recordType = None) as Hmiss.
  { rewrite (Extend_success_cache _ _ _ _ _ Hfirst). apply lookup_delete_eq. }
  split; [done|].
  intros typemap c2 Hi Hne Hall.
  pose proof (remoteColumnTypes_miss _ _ _ _ _ Hmiss Hi) as Hremote.
  eexists. unfold Extend. rewrite Hremote.
  rewrite decide_False; last first.
  { cbn. by intros ?%map_size_empty_iff. }
  rewrite stageColumns_nothing; last first.
  { intros key to Hin%(walks_maps_lookup range'); [|done]. cbn. by apply Hall. }
  rewrite decide_False by (rewrite map_size_empty; lia).
  split; [done|]. cbn.
  by apply introspect_only_queried, only_queried_executed in Hi.
Qed.

(** *** Foreign keys (STEP 3) *)

Lemma scanReferences_untouched refs typemap typemap' err (col : string) :
  scanReferences refs typemap = (typemap', err) →
  (∀ tbl, inr (col, tbl) ∉ refs) →
  typemap' !! col = typemap !! col.
Proof.
  revert typemap. induction refs as [|[e|[pc rtbl]] refs IH]; intros tm; cbn.
  - by intros [= <- _] _.
  - by intros [= <- _] _.
  - intros Hs Hno. rewrite (IH _ Hs).
    + apply lookup_insert_ne. intros ->. eapply Hno. left.
    + intros tbl Hin. eapply Hno. right. exact Hin.
Qed.

Lemma scanReferences_last before (col tbl : string) after typemap typemap' :
  scanReferences (before ++ inr (col, tbl) :: after) typemap = (typemap', None) →
  (∀ tbl', inr (col, tbl') ∉ after) →
  typemap' !! col = Some (referenceType tbl).
Proof.
  revert typemap. induction before as [|[e|[pc rtbl]] before IH]; intros tm; cbn.
  - intros Hs Hno. rewrite (scanReferences_untouched _ _ _ _ _ Hs Hno).
    apply lookup_insert_eq.
  - intros [=].
  - apply IH.
Qed.

(** C6, as the code has it. In the schema that introspection assembles, the
    referencing column of a foreign-key row is Asset with no reference type
    when the row names the table _asset, and otherwise Reference to the table
    the row names, for each row after which no other row lists the same
    column (of several rows for one column the last decides). *)
Theorem foreign_key_column_is_classified_by_its_last_row recordType c typemap c'
    before (col tbl : string) after :
  RecordSchema c !! recordType = None →
  remoteColumnTypes recordType c = (inr (Some typemap), c') →
  select_foreign_keys (database c) schemaName recordType
    = inr (before ++ inr (col, tbl) :: after) →
  (∀ tbl', inr (col, tbl') ∉ after) →
  typemap !! col =
    Some (if decide (tbl = "_asset") then mkFieldType TypeAsset ""
          else mkFieldType TypeReference tbl).
Proof.
  intros Hmiss Hremote Hrefs Hlast.
  apply remoteColumnTypes_inv in Hremote
    as [(schema & Hhit & _)|(tm0 & c1 & _ & Hi & _)]; [congruence|].
  apply introspect_success in Hi
    as (_ & oid & rows & tm1 & ints & tm2 & c2 & c3 & refs & _ & _ & _ & _ & _ & Hfk & Hscan).
  rewrite Hrefs in Hfk. injection Hfk as <-.
  exact (scanReferences_last _ _ _ _ _ _ Hscan Hlast).
Qed.

(** *** Sequences (STEP 2.1) *)

Lemma append_cons (x : ascii) (a b : string) :
  String x a +:+ b = String x (a +:+ b).
Proof. reflexivity. Qed.

Lemma append_assoc (a b d : string) : (a +:+ b) +:+ d = a +:+ b +:+ d.
Proof.
  induction a as [|x a IH]; [done|]. rewrite !append_cons. by rewrite IH.
Qed.

Lemma length_append (a b : string) :
  String.length (a +:+ b) = String.length a + String.length b.
Proof.
  induction a as [|x a IH]; [done|]. rewrite append_cons. cbn. by rewrite IH.
Qed.

Lemma strip_prefix_append (prefix s : string) :
  gostrings.strip_prefix prefix (prefix +:+ s) = Some s.
Proof.
  induction prefix as [|x prefix IH]; [by destruct s|].
  rewrite append_cons. cbn. by rewrite Ascii.eqb_refl.
Qed.

Lemma strip_suffix_append (x suffix : string) :
  gostrings.strip_suffix suffix (x +:+ suffix) = Some x.
Proof.
  induction x as [|a x IH].
  - change (EmptyString +:+ suffix) with suffix.
    destruct suffix; cbn; by rewrite decide_True.
  - rewrite append_cons. cbn. rewrite decide_False.
    + by rewrite IH.
    + intros Heq. apply (f_equal String.length) in Heq.
      cbn in Heq. rewrite length_append in Heq. lia.
Qed.

(** The trimming of [getSequences] gives back the column of a sequence named
    after the record type and the column. *)
Lemma trimmed_sequence_name (recordType col : string) :
  gostrings.TrimSuffix
    (gostrings.TrimPrefix (recordType +:+ "_" +:+ col +:+ "_seq") (recordType +:+ "_"))
    "_seq" = col.
Proof.
  unfold gostrings.TrimPrefix, gostrings.TrimSuffix.
  rewrite <- (append_assoc recordType "_"), strip_prefix_append. simpl.
  by rewrite strip_suffix_append.
Qed.

Lemma scanSequences_names recordType rows acc seqList :
  scanSequences recordType rows acc = (seqList, None) →
  ∃ names,
    rows = inr <$> names ∧
    seqList = acc ++
      ((λ relname, gostrings.TrimSuffix
                     (gostrings.TrimPrefix relname (recordType +:+ "_")) "_seq")
         <$> names).
Proof.
  revert acc. induction rows as [|[e|relname] rows IH]; intros acc; cbn.
  - intros [= <-]. exists []. by rewrite app_nil_r.
  - intros [=].
  - intros (names & -> & ->)%IH. exists (relname :: names).
    by rewrite <- app_assoc.
Qed.

Lemma sequenceMap_lookup seqList (col : string) :
  is_Some (sequenceMap seqList !! col) ↔ col ∈ seqList.
Proof.
  unfold sequenceMap.
  assert (∀ m : gmap string bool,
            is_Some (foldl (λ m perSeq, <[perSeq:=true]> m) m seqList !! col)
            ↔ col ∈ seqList ∨ is_Some (m !! col)) as Hgen.
  { induction seqList as [|x seqList IH]; intros m; cbn.
    - rewrite elem_of_nil. tauto.
    - rewrite IH, elem_of_cons. destruct (decide (x = col)) as [->|Hne].
      + rewrite lookup_insert_eq. intuition eauto.
      + rewrite lookup_insert_ne by done. intuition congruence. }
  rewrite Hgen, lookup_empty. split; [intros [?|[? [=]]]; done|by left].
Qed.

Lemma markSequence_other sequences typemap (perIntColumn col : string) :
  perIntColumn ≠ col →
  markSequence sequences typemap perIntColumn !! col = typemap !! col.
Proof.
  intros Hne. unfold markSequence.
  destruct (sequences !! perIntColumn); [|done]. by apply lookup_insert_ne.
Qed.

Lemma markSequences_without sequences integerColumns typemap (col : string) :
  sequences !! col = None →
  foldl (markSequence sequences) typemap integerColumns !! col = typemap !! col.
Proof.
  intros Hnone. revert typemap.
  induction integerColumns as [|i ints IH]; intros tm; cbn; [done|].
  rewrite IH. destruct (decide (i = col)) as [->|Hne].
  - unfold markSequence. by rewrite Hnone.
  - by apply markSequence_other.
Qed.

Lemma markSequences_with sequences integerColumns typemap (col : string) :
  is_Some (sequences !! col) →
  (∀ schema, typemap !! col = Some schema → ReferenceType schema = "") →
  col ∈ integerColumns ∨ typemap !! col = Some (mkFieldType TypeSequence "") →
  foldl (markSequence sequences) typemap integerColumns !! col
    = Some (mkFieldType TypeSequence "").
Proof.
  intros [b Hseq]. revert typemap.
  induction integerColumns as [|i ints IH]; intros tm Href Hin; cbn.
  { destruct Hin as [Hin|Hin]; [by apply elem_of_nil in Hin|done]. }
  destruct (decide (i = col)) as [->|Hne].
  - assert (markSequence sequences tm col !! col
            = Some (mkFieldType TypeSequence "")) as Hmarked.
    { unfold markSequence. rewrite Hseq, lookup_insert_eq.
      destruct (tm !! col) as [schema|] eqn:Hcol; cbn; [|done].
      by rewrite (Href schema). }
    apply IH; [|by right].
    intros schema. rewrite Hmarked. by intros [= <-].
  - apply IH.
    + intros schema. rewrite markSequence_other by done. apply Href.
    + rewrite markSequence_other by done.
      destruct Hin as [[->|Hin]%elem_of_cons|Hin]; [done|by left|by right].
Qed.

Lemma columnType_integer (columnName : string) :
  NoDup native_types → columnType columnName TypeInteger = Some skydb.TypeInteger.
Proof.
  unfold native_types. intros Hdistinct.
  repeat match goal with
         | H : NoDup (_ :: _) |- _ => apply NoDup_cons in H as [? H]
         end.
  unfold columnType.
  repeat (rewrite decide_False; [|intros Heq; rewrite Heq in *; set_solver]).
  by rewrite decide_True.
Qed.

Lemma scanColumns_integerColumns rows typemap ints typemap' ints' (col : string) :
  scanColumns rows typemap ints = (typemap', ints', None) →
  col ∈ ints ∨
    (∃ pqType, inr (col, pqType) ∈ rows ∧
               columnType col pqType = Some skydb.TypeInteger) →
  col ∈ ints'.
Proof.
  revert typemap ints.
  induction rows as [|[e|[columnName pqType]] rows IH]; intros tm ints; cbn.
  - intros [= _ <-] [Hin|(ty & Hin & _)]; [done|by apply elem_of_nil in Hin].
  - intros [=].
  - destruct (columnType columnName pqType) as [t|] eqn:Ht; [|intros [=]].
    intros Hscan Hin. apply (IH _ _ Hscan).
    destruct Hin as [Hin|(ty & [[= <- <-]|Hin]%elem_of_cons & Hty)].
    + left. destruct (decide _); [|done]. apply elem_of_app. by left.
    + left. rewrite Ht in Hty. injection Hty as ->.
      rewrite decide_True by done. apply elem_of_app. right. left.
    + right. by exists ty.
Qed.

Lemma scanColumns_unset_reference rows typemap ints typemap' ints' err (col : string) :
  scanColumns rows typemap ints = (typemap', ints', err) →
  (∀ schema, typemap !! col = Some schema → ReferenceType schema = "") →
  ∀ schema, typemap' !! col = Some schema → ReferenceType schema = "".
Proof.
  revert typemap ints.
  induction rows as [|[e|[columnName pqType]] rows IH]; intros tm ints; cbn.
  - by intros [= <- _ _].
  - by intros [= <- _ _].
  - destruct (columnType columnName pqType) as [t|]; [|by intros [= <- _ _]].
    intros Hscan Href. apply (IH _ _ Hscan).
    intros schema. destruct (decide (columnName = col)) as [->|Hne].
    + rewrite lookup_insert_eq. by intros [= <-].
    + rewrite lookup_insert_ne by done. apply Href.
Qed.

Lemma scanColumns_untouched (cols : list (string * string)) typemap ints
    typemap' ints' err (col : string) :
  scanColumns (inr <$> cols) typemap ints = (typemap', ints', err) →
  col ∉ cols.*1 →
  typemap' !! col = typemap !! col.
Proof.
  revert typemap ints.
  induction cols as [|[columnName pqType] cols IH]; intros tm ints; cbn.
  - by intros [= <- _ _].
  - destruct (columnType columnName pqType) as [t|]; [|by intros [= <- _ _]].
    intros Hscan [Hne Hnotin]%not_elem_of_cons.
    rewrite (IH _ _ Hscan Hnotin). by apply lookup_insert_ne.
Qed.

Lemma scanColumns_typed (cols : list (string * string)) typemap ints
    typemap' ints' (col pqType : string) :
  scanColumns (inr <$> cols) typemap ints = (typemap', ints', None) →
  NoDup cols.*1 →
  (col, pqType) ∈ cols →
  ∃ t, columnType col pqType = Some t ∧
       typemap' !! col = Some (mkFieldType t "").
Proof.
  revert typemap ints.
  induction cols as [|[columnName ty] cols IH]; intros tm ints; cbn.
  { intros _ _ Hin. by apply elem_of_nil in Hin. }
  destruct (columnType columnName ty) as [t|] eqn:Ht; [|intros [=]].
  intros Hscan [Hfresh Hnodup]%NoDup_cons [[= -> ->]|Hin]%elem_of_cons.
  - exists t. split; [done|].
    rewrite (scanColumns_untouched _ _ _ _ _ _ _ Hscan Hfresh).
    apply lookup_insert_eq.
  - by apply (IH _ _ Hscan).
Qed.

Lemma convertSequences_marked recordType typemap ints c typemap2 c2 i :
  convertSequences recordType typemap ints c = (typemap2, None, c2) →
  i ∈ ints →
  ∃ seqrows seqList,
    select_sequences (database c) (recordType +:+ "\_%\_seq") schemaName
      = inr seqrows ∧
    scanSequences recordType seqrows [] = (seqList, None) ∧
    typemap2 = foldl (markSequence (sequenceMap seqList)) typemap ints.
Proof.
  unfold convertSequences. destruct ints as [|j ints].
  { intros _ Hin. by apply elem_of_nil in Hin. }
  unfold getSequences. cbn.
  destruct (select_sequences _ _ _) as [e|seqrows]; [intros [=]|].
  destruct (scanSequences recordType seqrows []) as [seqList [e|]] eqn:Hscan;
    [intros [=]|].
  intros [= <- _] _. by exists seqrows, seqList.
Qed.

(** C7, as the code has it. For an integer column that no foreign-key row
    lists: when the catalog lists the sequence named after the record type
    and the column, the column is Sequence in the schema introspection
    returns; when column names are unique, the sequences listed are all named
    after the record type and a column, and that sequence is not among them,
    the column is Integer. *)
Theorem integer_column_sequence_classification recordType c typemap c'
    oid (cols : list (string * string)) seqrows refs (col : string) :
  NoDup native_types →
  RecordSchema c !! recordType = None →
  remoteColumnTypes recordType c = (inr (Some typemap), c') →
  select_oid (database c) recordType schemaName = inr oid →
  select_columns (database c) oid = inr (inr <$> cols) →
  (col, TypeInteger) ∈ cols →
  select_sequences (database c) (recordType +:+ "\_%\_seq") schemaName
    = inr seqrows →
  select_foreign_keys (database c) schemaName recordType = inr refs →
  (∀ tbl, inr (col, tbl) ∉ refs) →
  (inr (recordType +:+ "_" +:+ col +:+ "_seq") ∈ seqrows →
   typemap !! col = Some (mkFieldType TypeSequence "")) ∧
  (NoDup cols.*1 →
   (∀ name, inr name ∈ seqrows →
      ∃ x, name = recordType +:+ "_" +:+ x +:+ "_seq") →
   inr (recordType +:+ "_" +:+ col +:+ "_seq") ∉ seqrows →
   typemap !! col = Some (mkFieldType skydb.TypeInteger "")).
Proof.
  intros Hdistinct Hmiss Hremote Hoid Hcols Hcol Hseqs Hrefs Hnofk.
  apply remoteColumnTypes_inv in Hremote
    as [(schema & Hhit & _)|(tm0 & c0 & _ & Hi & _)]; [congruence|].
  apply introspect_success in Hi
    as (_ & oid' & rows & tm1 & ints & tm2 & c1 & c2 & refs'
        & Hoid' & Hcols' & Hscan & Hconv & Hdb & Hrefs' & Hscanrefs).
  rewrite Hoid in Hoid'. injection Hoid' as <-.
  rewrite Hcols in Hcols'. injection Hcols' as <-.
  rewrite Hrefs in Hrefs'. injection Hrefs' as <-.
  rewrite (scanReferences_untouched _ _ _ _ _ Hscanrefs Hnofk).
  assert (col ∈ ints) as Hint.
  { apply (scanColumns_integerColumns _ _ _ _ _ _ Hscan). right.
    exists TypeInteger. split; [by apply list_elem_of_fmap_2|].
    by apply columnType_integer. }
  destruct (convertSequences_marked _ _ _ _ _ _ _ Hconv Hint)
    as (seqrows' & seqList & Hseqs' & Hscanseq & ->).
  rewrite Hdb, Hseqs in Hseqs'. injection Hseqs' as <-.
  apply scanSequences_names in Hscanseq as (names & -> & ->).
  rewrite app_nil_l. split.
  - intros Hnamed%(list_elem_of_fmap_inj_2 inr).
    apply markSequences_with; [| |by left].
    + apply sequenceMap_lookup. apply list_elem_of_fmap.
      exists (recordType +:+ "_" +:+ col +:+ "_seq").
      by rewrite trimmed_sequence_name.
    + apply (scanColumns_unset_reference _ _ _ _ _ _ _ Hscan).
      intros schema. by rewrite lookup_empty.
  - intros Hnodup Hpattern Hunnamed.
    rewrite markSequences_without.
    + destruct (scanColumns_typed _ _ _ _ _ _ _ Hscan Hnodup Hcol) as (t & Ht & ->).
      rewrite columnType_integer in Ht by done. by injection Ht as <-.
    + apply eq_None_not_Some. rewrite sequenceMap_lookup.
      intros (name & Htrim & Hin)%list_elem_of_fmap.
      destruct (Hpattern name) as [x ->]; [by apply list_elem_of_fmap_2|].
      rewrite trimmed_sequence_name in Htrim. subst x.
      apply Hunnamed. by apply list_elem_of_fmap_2.
Qed.

(** *** [RenameSchema] and [DeleteSchema] *)

(** C1, what the code does instead. A successful [RenameSchema] or
    [DeleteSchema] leaves the cache entry of the record type where it was, and
    the [GetSchema] after it returns that cached schema without a query. *)
Theorem schema_edits_keep_cache_entry recordType c schema :
  RecordSchema c !! recordType = Some schema →
  (∀ oldName newName c',
     RenameSchema recordType oldName newName c = (None, c') →
     RecordSchema c' !! recordType = Some schema ∧
     GetSchema recordType c' = (inr schema, c')) ∧
  (∀ columnName c',
     DeleteSchema recordType columnName c = (None, c') →
     RecordSchema c' !! recordType = Some schema ∧
     GetSchema recordType c' = (inr schema, c')).
Proof.
  intros Hentry.
  assert (∀ c', RecordSchema c' = RecordSchema c →
            RecordSchema c' !! recordType = Some schema ∧
            GetSchema recordType c' = (inr schema, c')) as Hkept.
  { intros c' Hc'. rewrite Hc'. split; [done|].
    unfold GetSchema. rewrite (remoteColumnTypes_hit _ _ schema); [done|].
    by rewrite Hc'. }
  split.
  - intros oldName newName c'. unfold RenameSchema.
    destruct (Exec _ c) as [[e|] c1] eqn:Hexec; intros [= <-].
    apply Hkept. by eapply Exec_cache.
  - intros columnName c'. unfold DeleteSchema.
    destruct (Exec _ c) as [[e|] c1] eqn:Hexec; intros [= <-].
    apply Hkept. by eapply Exec_cache.
Qed.

End SchemaFacts.

(** ** Names of foreign-key constraints *)

Section ForeignKeyNames.

Import gostrings.

Lemma underscore_splits (a a' rest rest' : string) :
  has_underscore a = false →
  has_underscore a' = false →
  a +:+ "_" +:+ rest = a' +:+ "_" +:+ rest' →
  a = a' ∧ rest = rest'.
Proof.
  revert a'. induction a as [|x a IH]; intros [|x' a']; cbn.
  - intros _ _ [= Heq]. by subst.
  - intros _ Hx' [= Hx _]. subst x'. by rewrite Ascii.eqb_refl in Hx'.
  - intros Hx _ [= Hx' _]. subst x. by rewrite Ascii.eqb_refl in Hx.
  - destruct (Ascii.eqb x "_"%char) eqn:Hx; [done|].
    destruct (Ascii.eqb x' "_"%char) eqn:Hx'; [done|].
    intros Ha Ha' [= Hxx Heq]. subst x'.
    destruct (IH a' Ha Ha' Heq) as [Haa Hrest]. by subst.
Qed.

(** C9, as the code has it. For local columns and referenced tables without
    an underscore in their names, the constraint name tells the triple: two
    triples with the same name are the same. *)
Theorem foreignKeyName_injective_without_underscores
    (localCol referent remoteCol localCol' referent' remoteCol' : string) :
  has_underscore localCol = false →
  has_underscore referent = false →
  has_underscore localCol' = false →
  has_underscore referent' = false →
  foreignKeyName localCol referent remoteCol
    = foreignKeyName localCol' referent' remoteCol' →
  (localCol, referent, remoteCol) = (localCol', referent', remoteCol').
Proof.
  intros Hl Hr Hl' Hr'. unfold foreignKeyName. cbn. intros [= Heq].
  destruct (underscore_splits _ _ _ _ Hl Hl' Heq) as [Hll Heq'].
  destruct (underscore_splits _ _ _ _ Hr Hr' Heq') as [Hrr Hcc]. by subst.
Qed.

End ForeignKeyNames.

(** ** More facts about introspection and the cache *)

Section IntrospectionFacts.

Context {B : Type} {driver : Driver B} {naming : Naming}.

Implicit Types (c : conn B) (recordType : string).

Lemma remoteColumnTypes_database recordType c result c' :
  remoteColumnTypes recordType c = (result, c') → database c' = database c.
Proof.
  intros [(schema & _ & _ & ->)|(typemap & c1 & _ & Hi & ->)]%remoteColumnTypes_inv;
    [done|].
  by apply introspect_only_queried in Hi as (_ & Hd & _).
Qed.

Lemma remoteColumnTypes_other recordType c result c' (other : string) :
  remoteColumnTypes recordType c = (result, c') →
  other ≠ recordType →
  RecordSchema c' !! other = RecordSchema c !! other.
Proof.
  intros [(schema & _ & _ & ->)|(typemap & c1 & _ & Hi & ->)]%remoteColumnTypes_inv;
    [done|].
  intros Hne. apply introspect_only_queried in Hi as (Hc & _).
  cbn. rewrite Hc. by apply lookup_insert_ne.
Qed.

Lemma remoteColumnTypes_keeps recordType c result c' (other : string) schema :
  remoteColumnTypes recordType c = (result, c') →
  RecordSchema c !! other = Some schema →
  RecordSchema c' !! other = Some schema.
Proof.
  intros Hremote Hentry. destruct (decide (other = recordType)) as [->|Hne].
  - by rewrite (remoteColumnTypes_hit _ _ _ Hentry) in Hremote; injection Hremote as _ <-.
  - by rewrite (remoteColumnTypes_other _ _ _ _ _ Hremote Hne).
Qed.

(** X1. A call of [remoteColumnTypes] leaves the entries of the other record
    types as they are, changes nothing at all when its own record type is
    cached, never changes the database and never executes a statement. *)
Theorem introspection_touches_its_own_entry_only recordType c result c' :
  remoteColumnTypes recordType c = (result, c') →
  (∀ other, other ≠ recordType →
     RecordSchema c' !! other = RecordSchema c !! other) ∧
  (is_Some (RecordSchema c !! recordType) → c' = c) ∧
  database c' = database c ∧
  executed (journal c') = executed (journal c).
Proof.
  intros Hremote. split_and!.
  - intros other. exact (remoteColumnTypes_other _ _ _ _ other Hremote).
  - intros [schema Hentry].
    rewrite (remoteColumnTypes_hit _ _ _ Hentry) in Hremote. by injection Hremote.
  - by eapply remoteColumnTypes_database.
  - by eapply remoteColumnTypes_executed.
Qed.

(** X2. After any [GetSchema], failed or not, the next [GetSchema] of the same
    record type returns no error and changes nothing; when the first one
    returned a non-nil schema it is the same schema. *)
Theorem GetSchema_again_is_served_from_the_cache recordType c result c1 :
  GetSchema recordType c = (result, c1) →
  ∃ schema,
    GetSchema recordType c1 = (inr schema, c1) ∧
    ∀ typemap, result = inr (Some typemap) → schema = Some typemap.
Proof.
  unfold GetSchema.
  destruct (remoteColumnTypes recordType c) as [r c'] eqn:Hremote.
  intros Hget.
  assert (result = r ∧ c1 = c') as [-> ->] by (destruct r; by injection Hget).
  destruct (remoteColumnTypes_entry _ _ _ _ Hremote) as [schema Hentry].
  exists schema. rewrite (remoteColumnTypes_hit _ _ _ Hentry). split; [done|].
  intros typemap ->.
  destruct (remoteColumnTypes_returns_entry _ _ _ _ Hremote) as [Hsame|[[=] _]].
  congruence.
Qed.

Lemma scanColumns_known (known : list (string * string)) rest typemap ints :
  (∀ columnName pqType, (columnName, pqType) ∈ known →
     is_Some (columnType columnName pqType)) →
  ∃ typemap' ints',
    scanColumns ((inr <$> known) ++ rest) typemap ints
      = scanColumns rest typemap' ints'.
Proof.
  revert typemap ints.
  induction known as [|[columnName pqType] known IH]; intros tm ints Hknown.
  { by exists tm, ints. }
  cbn. destruct (Hknown columnName pqType) as [t ->]; [left|].
  apply IH. intros k ty Hin. apply Hknown. by right.
Qed.

(** X3. When the column listing has a column of a native type that is none of
    the seven known ones, after columns of known types, introspection fails
    with the error that names that type and that column, and sends neither
    the sequence query nor the foreign-key query. *)
Theorem unknown_native_type_fails_introspection recordType c oid
    (known : list (string * string)) (columnName pqType : string) rest :
  RecordSchema c !! recordType = None →
  select_oid (database c) recordType schemaName = inr oid →
  select_columns (database c) oid
    = inr ((inr <$> known) ++ inr (columnName, pqType) :: rest) →
  (∀ k ty, (k, ty) ∈ known → is_Some (columnType k ty)) →
  columnType columnName pqType = None →
  ∃ c',
    remoteColumnTypes recordType c
      = (inl (received_unknown_data_type pqType columnName), c') ∧
    journal c' = journal c ++ [Queried (QueryOid recordType schemaName);
                               Queried (QueryColumns oid)].
Proof.
  intros Hmiss Hoid Hcols Hknown Hunknown.
  destruct (scanColumns_known known (inr (columnName, pqType) :: rest) ∅ [] Hknown)
    as (tm & ints & Hscan).
  assert (introspect recordType c
          = (tm, inl (received_unknown_data_type pqType columnName),
             asked (QueryColumns oid) (asked (QueryOid recordType schemaName) c)))
    as Hi.
  { unfold introspect. cbn. rewrite Hoid, Hcols, Hscan. cbn. by rewrite Hunknown. }
  eexists. split; [exact (remoteColumnTypes_miss _ _ _ _ _ Hmiss Hi)|].
  cbn. by rewrite <- app_assoc.
Qed.

(** *** The columns of the schema that introspection returns *)

Lemma scanColumns_keys rows (typemap : gmap string FieldType) ints typemap' ints' :
  scanColumns rows typemap ints = (typemap', ints', None) →
  ∀ col, is_Some (typemap' !! col) ↔
         is_Some (typemap !! col) ∨ ∃ pqType, inr (col, pqType) ∈ rows.
Proof.
  revert typemap ints.
  induction rows as [|[e|[columnName pqType]] rows IH]; intros tm ints; cbn.
  - intros [= <- _] col. split; [by left|].
    intros [?|[ty Hin]]; [done|by apply elem_of_nil in Hin].
  - intros [=].
  - destruct (columnType columnName pqType) as [t|]; [|intros [=]].
    intros Hscan col. rewrite (IH _ _ Hscan col).
    destruct (decide (columnName = col)) as [->|Hne].
    + rewrite lookup_insert_eq. split; [|by left].
      intros _. right. exists pqType. left.
    + rewrite lookup_insert_ne by done. split.
      * intros [?|[ty Hin]]; [by left|]. right. exists ty. by right.
      * intros [?|[ty [[= <- _]|Hin]%elem_of_cons]]; [by left|done|].
        right. by exists ty.
Qed.

Lemma scanColumns_integers_only rows (typemap : gmap string FieldType) ints
    typemap' ints' :
  scanColumns rows typemap ints = (typemap', ints', None) →
  ∀ i, i ∈ ints' →
       i ∈ ints ∨ ∃ pqType, inr (i, pqType) ∈ rows ∧
                            columnType i pqType = Some skydb.TypeInteger.
Proof.
  revert typemap ints.
  induction rows as [|[e|[columnName pqType]] rows IH]; intros tm ints; cbn.
  - intros [= _ <-] i Hin. by left.
  - intros [=].
  - destruct (columnType columnName pqType) as [t|] eqn:Ht; [|intros [=]].
    intros Hscan i Hin.
    destruct (IH _ _ Hscan i Hin) as [Hold|(ty & Hrow & Hty)].
    + destruct (decide (t = skydb.TypeInteger)) as [->|Hne]; [|by left].
      apply elem_of_app in Hold as [Hold|Hnew]; [by left|].
      apply list_elem_of_singleton in Hnew as ->.
      right. exists pqType. split; [left|done].
    + right. exists ty. split; [by right|done].
Qed.

Lemma markSequences_absent sequences integerColumns
    (typemap : gmap string FieldType) (col : string) :
  col ∉ integerColumns →
  foldl (markSequence sequences) typemap integerColumns !! col = typemap !! col.
Proof.
  revert typemap.
  induction integerColumns as [|i ints IH]; intros tm; cbn; [done|].
  intros [Hne Hnotin]%not_elem_of_cons.
  rewrite (IH _ Hnotin). apply markSequence_other. congruence.
Qed.

Lemma markSequences_keys sequences integerColumns
    (typemap : gmap string FieldType) (col : string) :
  (∀ i, i ∈ integerColumns → is_Some (typemap !! i)) →
  is_Some (foldl (markSequence sequences) typemap integerColumns !! col)
  ↔ is_Some (typemap !! col).
Proof.
  revert typemap.
  induction integerColumns as [|i ints IH]; intros tm Hints; cbn; [done|].
  assert (∀ k, is_Some (markSequence sequences tm i !! k) ↔ is_Some (tm !! k))
    as Hstep.
  { intros k. unfold markSequence. destruct (sequences !! i); [|done].
    destruct (decide (i = k)) as [<-|Hne].
    - rewrite lookup_insert_eq. split; [intros _|by eauto].
      apply Hints. left.
    - by rewrite lookup_insert_ne. }
  rewrite IH; [apply Hstep|].
  intros k Hk. apply Hstep, Hints. by right.
Qed.

Lemma convertSequences_marks recordType (typemap : gmap string FieldType) ints c
    typemap2 c2 :
  convertSequences recordType typemap ints c = (typemap2, None, c2) →
  ∃ sequences, typemap2 = foldl (markSequence sequences) typemap ints.
Proof.
  unfold convertSequences. destruct ints as [|i ints].
  { intros [= <- _]. by exists ∅. }
  destruct (getSequences recordType c) as [[seqList [e|]] c1]; [intros [=]|].
  intros [= <- _]. by eexists.
Qed.

Lemma scanReferences_keys refs (typemap typemap' : gmap string FieldType) :
  scanReferences refs typemap = (typemap', None) →
  ∀ col, is_Some (typemap' !! col) ↔
         is_Some (typemap !! col) ∨ ∃ tbl, inr (col, tbl) ∈ refs.
Proof.
  revert typemap.
  induction refs as [|[e|[primaryColumn referencedTable]] refs IH]; intros tm; cbn.
  - intros [= <-] col. split; [by left|].
    intros [?|[tbl Hin]]; [done|by apply elem_of_nil in Hin].
  - intros [=].
  - intros Hscan col. rewrite (IH _ Hscan col).
    destruct (decide (primaryColumn = col)) as [->|Hne].
    + rewrite lookup_insert_eq. split; [|by left].
      intros _. right. exists referencedTable. left.
    + rewrite lookup_insert_ne by done. split.
      * intros [?|[tbl Hin]]; [by left|]. right. exists tbl. by right.
      * intros [?|[tbl [[= <- _]|Hin]%elem_of_cons]]; [by left|done|].
        right. by exists tbl.
Qed.

Lemma unique_column (cols : list (string * string)) (col ty ty' : string) :
  NoDup cols.*1 → (col, ty) ∈ cols → (col, ty') ∈ cols → ty = ty'.
Proof.
  induction cols as [|[k v] cols IH]; cbn.
  { intros _ Hin. by apply elem_of_nil in Hin. }
  intros [Hfresh Hnodup]%NoDup_cons Hin Hin'.
  apply elem_of_cons in Hin as [Hin|Hin]; apply elem_of_cons in Hin' as [Hin'|Hin'].
  - congruence.
  - injection Hin as -> ->. exfalso. apply Hfresh.
    by apply (list_elem_of_fmap_2 fst) in Hin'.
  - injection Hin' as -> ->. exfalso. apply Hfresh.
    by apply (list_elem_of_fmap_2 fst) in Hin.
  - by apply IH.
Qed.

(** X4. The fields of the schema that a successful introspection returns
    are the columns the catalog lists and the referencing columns of the
    foreign-key rows, no more and no less. *)
Theorem introspected_fields_are_the_listed_columns recordType c typemap c'
    oid rows refs :
  RecordSchema c !! recordType = None →
  remoteColumnTypes recordType c = (inr (Some typemap), c') →
  select_oid (database c) recordType schemaName = inr oid →
  select_columns (database c) oid = inr rows →
  select_foreign_keys (database c) schemaName recordType = inr refs →
  ∀ col, is_Some (typemap !! col) ↔
         (∃ pqType, inr (col, pqType) ∈ rows) ∨ (∃ tbl, inr (col, tbl) ∈ refs).
Proof.
  intros Hmiss Hremote Hoid Hcols Hrefs col.
  apply remoteColumnTypes_inv in Hremote
    as [(schema & Hhit & _)|(tm0 & c0 & _ & Hi & _)]; [congruence|].
  apply introspect_success in Hi
    as (_ & oid' & rows' & tm1 & ints & tm2 & c1 & c2 & refs'
        & Hoid' & Hcols' & Hscan & Hconv & _ & Hrefs' & Hscanrefs).
  rewrite Hoid in Hoid'. injection Hoid' as <-.
  rewrite Hcols in Hcols'. injection Hcols' as <-.
  rewrite Hrefs in Hrefs'. injection Hrefs' as <-.
  apply convertSequences_marks in Hconv as [sequences ->].
  rewrite (scanReferences_keys _ _ _ Hscanrefs col).
  rewrite markSequences_keys.
  - rewrite (scanColumns_keys _ _ _ _ _ Hscan col), lookup_empty.
    split; [intros [[[? [=]]|?]|?]|intros [?|?]]; eauto.
  - intros i Hi. apply (scanColumns_keys _ _ _ _ _ Hscan i). right.
    destruct (scanColumns_integers_only _ _ _ _ _ Hscan i Hi)
      as [Hnil|(ty & Hrow & _)]; [by apply elem_of_nil in Hnil|by exists ty].
Qed.

(** X5. A column with a unique name, of a native type that the switch maps to
    a tag other than Integer, and that no foreign-key row lists, has that
    tag and no reference type in the schema that introspection returns: the
    jsonb column _access is ACL, any other jsonb column is JSON, and so
    on. *)
Theorem column_is_classified_by_its_native_type recordType c typemap c'
    oid (cols : list (string * string)) refs (col pqType : string) t :
  RecordSchema c !! recordType = None →
  remoteColumnTypes recordType c = (inr (Some typemap), c') →
  select_oid (database c) recordType schemaName = inr oid →
  select_columns (database c) oid = inr (inr <$> cols) →
  NoDup cols.*1 →
  (col, pqType) ∈ cols →
  columnType col pqType = Some t →
  t ≠ skydb.TypeInteger →
  select_foreign_keys (database c) schemaName recordType = inr refs →
  (∀ tbl, inr (col, tbl) ∉ refs) →
  typemap !! col = Some (mkFieldType t "").
Proof.
  intros Hmiss Hremote Hoid Hcols Hnodup Hcol Ht Hnotint Hrefs Hnofk.
  apply remoteColumnTypes_inv in Hremote
    as [(schema & Hhit & _)|(tm0 & c0 & _ & Hi & _)]; [congruence|].
  apply introspect_success in Hi
    as (_ & oid' & rows' & tm1 & ints & tm2 & c1 & c2 & refs'
        & Hoid' & Hcols' & Hscan & Hconv & _ & Hrefs' & Hscanrefs).
  rewrite Hoid in Hoid'. injection Hoid' as <-.
  rewrite Hcols in Hcols'. injection Hcols' as <-.
  rewrite Hrefs in Hrefs'. injection Hrefs' as <-.
  apply convertSequences_marks in Hconv as [sequences ->].
  rewrite (scanReferences_untouched _ _ _ _ _ Hscanrefs Hnofk).
  rewrite markSequences_absent.
  - destruct (scanColumns_typed _ _ _ _ _ _ _ Hscan Hnodup Hcol) as (t' & Ht' & ->).
    congruence.
  - intros Hint.
    destruct (scanColumns_integers_only _ _ _ _ _ Hscan col Hint)
      as [Hnil|(ty & Hrow%(list_elem_of_fmap_inj_2 inr) & Hty)];
      [by apply elem_of_nil in Hnil|].
    assert (ty = pqType) as -> by (by eapply unique_column).
    congruence.
Qed.

End IntrospectionFacts.

(** ** More facts about [Extend] *)

Section ExtendFacts.

Context {B : Type} {driver : Driver B} {naming : Naming}.

Implicit Types (c : conn B) (recordType : string).
Implicit Types (remote : skydb.RecordSchema) (recordSchema : gmap string FieldType).

Lemma executed_snoc evs stmt :
  executed (evs ++ [Executed stmt]) = executed evs ++ [stmt].
Proof. by rewrite executed_app. Qed.

Lemma Exec_inv stmt c err c' :
  Exec stmt c = (err, c') →
  exec_stmt (database c) stmt = (database c', err) ∧
  RecordSchema c' = RecordSchema c ∧
  executed (journal c') = executed (journal c) ++ [stmt].
Proof.
  unfold Exec. destruct (exec_stmt _ _) as [b e]. intros [= <- <-]. cbn.
  by rewrite executed_snoc.
Qed.

(** Without a conflict the loop stages the desired fields that the remote
    schema lacks, each once. *)
Lemma stageColumns_staged remote (entries : list (string * FieldType))
    (updatingSchema : gmap string FieldType) :
  NoDup entries.*1 →
  (∀ key, key ∈ entries.*1 → updatingSchema !! key = None) →
  (∀ key to from, (key, to) ∈ entries → skydb.index remote key = Some from →
     isConflict from to = false) →
  ∃ staged,
    stageColumns remote entries updatingSchema = inr staged ∧
    ∀ key schema,
      staged !! key = Some schema ↔
      updatingSchema !! key = Some schema ∨
      ((key, schema) ∈ entries ∧ skydb.index remote key = None).
Proof.
  revert updatingSchema.
  induction entries as [|[k v] entries IH]; intros acc Hnodup Hfresh Hcompat.
  { exists acc. split; [done|]. intros key schema. split; [by left|].
    intros [?|[Hin _]]; [done|by apply elem_of_nil in Hin]. }
  cbn in Hnodup. apply NoDup_cons in Hnodup as [Hk Hnodup]. cbn.
  destruct (skydb.index remote k) as [from|] eqn:Hremote.
  - rewrite (Hcompat k v from); [|left|done].
    destruct (IH acc Hnodup) as (staged & -> & Hstaged).
    { intros key Hkey. apply Hfresh. by right. }
    { intros key to from' Hin. apply Hcompat. by right. }
    exists staged. split; [done|]. intros key schema. rewrite Hstaged.
    split; (intros [?|[Hin Hnone]]; [by left|right; split; [|done]]).
    + by right.
    + apply elem_of_cons in Hin as [[= -> ->]|Hin]; [congruence|done].
  - destruct (IH (<[k:=v]> acc) Hnodup) as (staged & -> & Hstaged).
    { intros key Hkey. rewrite lookup_insert_ne by (by intros ->).
      apply Hfresh. by right. }
    { intros key to from' Hin. apply Hcompat. by right. }
    exists staged. split; [done|]. intros key schema. rewrite Hstaged.
    destruct (decide (k = key)) as [<-|Hne].
    + rewrite lookup_insert_eq. split.
      * intros [[= <-]|[Hin _]]; [right; split; [left|done]|].
        exfalso. apply Hk. by apply (list_elem_of_fmap_2 fst) in Hin.
      * intros [Hacc|[Hin _]].
        { rewrite Hfresh in Hacc by left. done. }
        apply elem_of_cons in Hin as [[= <-]|Hin]; [by left|].
        exfalso. apply Hk. by apply (list_elem_of_fmap_2 fst) in Hin.
    + rewrite lookup_insert_ne by done.
      split; (intros [?|[Hin Hnone]]; [by left|right; split; [|done]]).
      * by right.
      * apply elem_of_cons in Hin as [[= -> _]|Hin]; [done|done].
Qed.

Lemma stageColumns_missing range remote recordSchema :
  walks_maps range →
  (∀ key to from, recordSchema !! key = Some to →
     skydb.index remote key = Some from → isConflict from to = false) →
  stageColumns remote (range recordSchema) ∅
    = inr (missing_columns remote recordSchema).
Proof.
  intros Hrange Hcompat.
  destruct (stageColumns_staged remote (range recordSchema) ∅)
    as (staged & -> & Hstaged).
  - rewrite (Hrange recordSchema). apply NoDup_fst_map_to_list.
  - intros key _. apply lookup_empty.
  - intros key to from Hin%(walks_maps_lookup range); [|done]. by apply Hcompat.
  - f_equal. apply map_eq. intros key. apply option_eq. intros schema.
    rewrite Hstaged. unfold missing_columns. rewrite map_lookup_filter_Some.
    rewrite lookup_empty, (walks_maps_lookup range) by done. cbn.
    split; [intros [[=]|?]; done|by right].
Qed.

Lemma missing_columns_of_empty remote recordSchema :
  skydb.len remote = 0 → missing_columns remote recordSchema = recordSchema.
Proof.
  intros Hlen. unfold missing_columns. apply map_filter_id.
  intros key schema _. cbn.
  destruct (skydb.index remote key) as [from|] eqn:Hkey; [|done].
  by apply len_index in Hkey.
Qed.

Lemma createTable_inv recordType c err c' :
  createTable recordType c = (err, c') →
  RecordSchema c' = RecordSchema c ∧
  ∃ b e,
    exec_stmt (database c) (createTableStmt (tableName recordType)) = (b, e) ∧
    match e with
    | Some _ =>
        err = e ∧ database c' = b ∧
        executed (journal c')
          = executed (journal c) ++ [createTableStmt (tableName recordType)]
    | None =>
        exec_stmt b (CreateTriggerStmt (tableName recordType)) = (database c', err) ∧
        executed (journal c')
          = executed (journal c) ++ [createTableStmt (tableName recordType);
                                     CreateTriggerStmt (tableName recordType)]
    end.
Proof.
  unfold createTable.
  destruct (Exec (createTableStmt _) c) as [e c1] eqn:Hcreate.
  apply Exec_inv in Hcreate as (Hexec & Hcache & Hjournal).
  destruct e as [e|].
  - intros [= <- <-]. split; [done|]. by eexists _, _.
  - intros (Hexec' & Hcache' & Hjournal')%Exec_inv.
    split; [congruence|]. eexists _, _. split; [done|]. cbn. split; [done|].
    by rewrite Hjournal', Hjournal, <- app_assoc.
Qed.

(** X6. When the schema handed to [Extend] is not empty and no desired field
    conflicts with it, [Extend] executes nothing if every desired field is
    there, and otherwise exactly one statement: the ALTER TABLE that adds the
    desired fields the remote schema lacks. With nothing to add it
    succeeds. *)
Theorem Extend_adds_the_missing_columns_in_one_statement range recordType
    recordSchema c remote c1 err c' :
  walks_maps range →
  remoteColumnTypes recordType c = (inr remote, c1) →
  skydb.len remote ≠ 0 →
  (∀ key to from, recordSchema !! key = Some to →
     skydb.index remote key = Some from → isConflict from to = false) →
  Extend range recordType recordSchema c = (err, c') →
  executed (journal c') =
    executed (journal c) ++
      (if decide (missing_columns remote recordSchema = ∅) then []
       else [addColumnStmt recordType (range (missing_columns remote recordSchema))]) ∧
  (missing_columns remote recordSchema = ∅ → err = None).
Proof.
  intros Hrange Hremote Hlen Hcompat. unfold Extend. rewrite Hremote.
  rewrite decide_False by done.
  rewrite (stageColumns_missing range) by done.
  apply remoteColumnTypes_executed in Hremote.
  destruct (decide (missing_columns remote recordSchema = ∅)) as [Hnone|Hsome].
  - rewrite decide_False by (rewrite Hnone, map_size_empty; lia).
    intros [= <- <-]. cbn [journal cache_delete]. by rewrite app_nil_r.
  - rewrite decide_True; last first.
    { apply map_size_non_empty_iff in Hsome. lia. }
    destruct (Exec _ c1) as [e c2] eqn:Hexec.
    apply Exec_inv in Hexec as (_ & _ & Hjournal).
    destruct e; intros [= <- <-]; cbn [journal cache_delete];
      by rewrite Hjournal, Hremote.
Qed.

(** X7. When the schema handed to [Extend] is empty (a nil schema or an empty
    one) and [Extend] succeeds, it has executed CREATE TABLE, then CREATE
    TRIGGER, then, unless the desired schema is empty, one ALTER TABLE that
    adds every desired field. *)
Theorem Extend_creates_the_table_first range recordType recordSchema c remote c1 c' :
  walks_maps range →
  remoteColumnTypes recordType c = (inr remote, c1) →
  skydb.len remote = 0 →
  Extend range recordType recordSchema c = (None, c') →
  executed (journal c') =
    executed (journal c) ++
      [createTableStmt (tableName recordType);
       CreateTriggerStmt (tableName recordType)] ++
      (if decide (recordSchema = ∅) then []
       else [addColumnStmt recordType (range recordSchema)]).
Proof.
  intros Hrange Hremote Hlen. unfold Extend. rewrite Hremote.
  rewrite decide_True by done.
  apply remoteColumnTypes_executed in Hremote.
  destruct (createTable recordType c1) as [e c2] eqn:Hcreate.
  apply createTable_inv in Hcreate as (_ & b & e' & _ & Hcreate).
  destruct e as [e|]; [intros [=]|].
  assert (executed (journal c2)
          = executed (journal c) ++ [createTableStmt (tableName recordType);
                                     CreateTriggerStmt (tableName recordType)])
    as Hjournal.
  { destruct e' as [e'|]; [by destruct Hcreate as ([=] & _)|].
    destruct Hcreate as [_ ->]. by rewrite Hremote. }
  rewrite (stageColumns_missing range); last first.
  { intros key to from _ Hkey. by apply len_index in Hkey. }
  { done. }
  rewrite missing_columns_of_empty by done.
  destruct (decide (recordSchema = ∅)) as [->|Hsome].
  - rewrite decide_False by (rewrite map_size_empty; lia).
    intros [= <-]. cbn [journal cache_delete]. by rewrite Hjournal, app_nil_r.
  - rewrite decide_True; last first.
    { apply map_size_non_empty_iff in Hsome. lia. }
    destruct (Exec _ c2) as [e c3] eqn:Hexec.
    apply Exec_inv in Hexec as (_ & _ & Hjournal').
    destruct e; intros [= <-]. cbn [journal cache_delete].
    by rewrite Hjournal', Hjournal, <- app_assoc.
Qed.

(** X8. When the schema handed to [Extend] is empty and CREATE TABLE fails,
    [Extend] returns that failure as a table-creation error and executes
    nothing more; when CREATE TABLE succeeds and CREATE TRIGGER fails,
    [Extend] returns a table-creation error too and sends no ALTER TABLE,
    though the table is there by then. *)
Theorem Extend_stops_when_the_table_is_not_created range recordType recordSchema
    c remote c1 b e :
  remoteColumnTypes recordType c = (inr remote, c1) →
  skydb.len remote = 0 →
  (exec_stmt (database c) (createTableStmt (tableName recordType)) = (b, Some e) →
   ∃ c', Extend range recordType recordSchema c
           = (Some (failed_to_create_table e), c') ∧
         database c' = b ∧
         executed (journal c')
           = executed (journal c) ++ [createTableStmt (tableName recordType)]) ∧
  (∀ b', exec_stmt (database c) (createTableStmt (tableName recordType)) = (b, None) →
     exec_stmt b (CreateTriggerStmt (tableName recordType)) = (b', Some e) →
     ∃ c', Extend range recordType recordSchema c
             = (Some (failed_to_create_table e), c') ∧
           database c' = b' ∧
           executed (journal c')
             = executed (journal c) ++ [createTableStmt (tableName recordType);
                                        CreateTriggerStmt (tableName recordType)]).
Proof.
  intros Hremote Hlen.
  pose proof (remoteColumnTypes_database _ _ _ _ Hremote) as Hdb.
  pose proof (remoteColumnTypes_executed _ _ _ _ Hremote) as Hjournal.
  split.
  - intros Hfail. unfold Extend. rewrite Hremote, decide_True by done.
    unfold createTable, Exec. rewrite Hdb, Hfail. eexists. split; [done|].
    cbn [journal database]. by rewrite executed_snoc, Hjournal.
  - intros b' Hcreate Htrigger. unfold Extend. rewrite Hremote, decide_True by done.
    unfold createTable, Exec. rewrite Hdb, Hcreate. cbn [journal database].
    rewrite Htrigger. eexists. split; [done|]. cbn [journal database].
    by rewrite !executed_snoc, Hjournal, <- app_assoc.
Qed.

(** X9. [Extend] leaves the cache entries of the other record types as they
    are, whatever it returns. *)
Theorem Extend_keeps_the_other_entries range recordType recordSchema c err c' :
  Extend range recordType recordSchema c = (err, c') →
  ∀ other, other ≠ recordType →
           RecordSchema c' !! other = RecordSchema c !! other.
Proof.
  unfold Extend. intros Hextend other Hne.
  destruct (remoteColumnTypes recordType c) as [[e|remote] c1] eqn:Hremote.
  { injection Hextend as _ <-. by eapply remoteColumnTypes_other. }
  rewrite <- (remoteColumnTypes_other _ _ _ _ other Hremote Hne).
  destruct (if decide (skydb.len remote = 0) then createTable recordType c1
            else (None, c1)) as [e2 c2] eqn:Hcreate.
  assert (RecordSchema c2 = RecordSchema c1) as Hc2.
  { revert Hcreate.
    destruct (decide (skydb.len remote = 0)); [apply createTable_cache|by intros [= _ <-]]. }
  destruct e2 as [e2|].
  { injection Hextend as _ <-. by rewrite Hc2. }
  destruct (stageColumns remote (range recordSchema) ∅) as [e3|updatingSchema].
  { injection Hextend as _ <-. by rewrite Hc2. }
  destruct (if decide (0 < size updatingSchema) then _ else _) as [e4 c4] eqn:Halter.
  assert (RecordSchema c4 = RecordSchema c2) as Hc4.
  { revert Halter.
    destruct (decide (0 < size updatingSchema)); [apply Exec_cache|by intros [= _ <-]]. }
  destruct e4 as [e4|]; injection Hextend as _ <-.
  - by rewrite Hc4, Hc2.
  - cbn. rewrite lookup_delete_ne by done. by rewrite Hc4, Hc2.
Qed.

(** X10. Whether two field types conflict does not depend on which of them is
    the remote one, nor on the record types they refer to. *)
Theorem isConflict_symmetric_and_blind_to_references (from to : FieldType)
    (referent referent' : string) :
  isConflict from to = isConflict to from ∧
  isConflict (mkFieldType (Type_ from) referent) (mkFieldType (Type_ to) referent')
    = isConflict from to.
Proof.
  unfold isConflict. cbn. split; [|done].
  destruct (decide (Type_ from = Type_ to)) as [Heq|Hne].
  - by rewrite decide_True.
  - rewrite decide_False by congruence. by rewrite andb_comm.
Qed.

End ExtendFacts.

(** ** Facts about the statement builder and the sequence listing *)

Section BuilderFacts.

Context {B : Type} {driver : Driver B} {naming : Naming}.

Lemma append_nil_r (a : string) : a +:+ "" = a.
Proof. induction a as [|x a IH]; [done|]. rewrite append_cons. by rewrite IH. Qed.

Lemma drop_last_comma (a : string) : gostrings.drop_last (a +:+ ",") = a.
Proof.
  induction a as [|x a IH]; [done|]. rewrite append_cons. cbn.
  rewrite IH. by destruct a.
Qed.

Lemma addColumn_append (buf : string) (entry : string * FieldType) :
  addColumn buf entry = buf +:+ addColumn "" entry.
Proof.
  destruct entry as [column [t referent]]. unfold addColumn. cbn.
  destruct t; cbn; try done; unfold writeForeignKeyConstraint;
    by rewrite append_assoc.
Qed.

Lemma addColumn_ends_with_comma (entry : string * FieldType) :
  ∃ clause, addColumn "" entry = clause +:+ ",".
Proof.
  destruct entry as [column [t referent]]. unfold addColumn. cbn.
  destruct t; cbn; unfold writeForeignKeyConstraint;
    change ")," with (")" +:+ ","); rewrite <- ?append_assoc;
    eexists; reflexivity.
Qed.

Lemma foldl_addColumn (buf : string) (entries : list (string * FieldType)) :
  foldl addColumn buf entries
    = buf +:+ foldr String.append "" (addColumn "" <$> entries).
Proof.
  revert buf. induction entries as [|entry entries IH]; intros buf; cbn.
  - by rewrite append_nil_r.
  - rewrite IH, (addColumn_append buf). by rewrite append_assoc.
Qed.

Lemma clauses_end_with_comma (entries : list (string * FieldType)) :
  entries ≠ [] →
  ∃ clauses, foldr String.append "" (addColumn "" <$> entries) = clauses +:+ ",".
Proof.
  induction entries as [|entry entries IH]; [done|]. intros _. cbn.
  destruct entries as [|entry' entries].
  - cbn. rewrite append_nil_r. apply addColumn_ends_with_comma.
  - destruct IH as [clauses ->]; [done|].
    exists (addColumn "" entry +:+ clauses). by rewrite append_assoc.
Qed.

(** X11. For columns in a given order, at least one, the statement of
    [addColumnStmt] followed by a comma is ALTER TABLE, the table and a
    space, followed by the clauses of the columns in that order: the
    truncation takes away the comma of the last clause and nothing else.
    For no column at all it takes away the space after the table. *)
Theorem addColumnStmt_is_the_clauses_without_the_last_comma
    (recordType : string) (entries : list (string * FieldType)) :
  (entries ≠ [] →
   addColumnStmt recordType entries +:+ ","
     = "ALTER TABLE " +:+ tableName recordType +:+ " "
         +:+ foldr String.append "" (addColumn "" <$> entries)) ∧
  addColumnStmt recordType [] = "ALTER TABLE " +:+ tableName recordType.
Proof.
  unfold addColumnStmt. split.
  - intros [clauses Hclauses]%clauses_end_with_comma.
    rewrite foldl_addColumn, Hclauses.
    rewrite <- !append_assoc. rewrite drop_last_comma. done.
  - cbn. rewrite <- append_assoc.
    change " " with ("" +:+ " "). rewrite <- append_assoc.
    assert (∀ a : string, gostrings.drop_last (a +:+ " ") = a) as Hdrop.
    { induction a as [|x a IH]; [done|]. rewrite append_cons. cbn.
      rewrite IH. by destruct a. }
    rewrite Hdrop. by rewrite append_nil_r.
Qed.

Lemma scanSequences_named recordType (cols : list string) acc :
  scanSequences recordType
    (inr <$> ((λ col, recordType +:+ "_" +:+ col +:+ "_seq") <$> cols)) acc
    = (acc ++ cols, None).
Proof.
  revert acc. induction cols as [|col cols IH]; intros acc; cbn.
  - by rewrite app_nil_r.
  - rewrite trimmed_sequence_name, IH. by rewrite <- app_assoc.
Qed.

Lemma scanSequences_failed recordType (names : list string) err rest acc :
  scanSequences recordType ((inr <$> names) ++ inl err :: rest) acc
    = ([], Some err).
Proof.
  revert acc. induction names as [|name names IH]; intros acc; cbn; [done|].
  apply IH.
Qed.

(** X12. When the catalog lists the sequences named after the record type
    and the columns [cols], [getSequences] returns [cols], in that order;
    when a row fails to scan it returns that error and the empty list,
    whatever it had collected. Either way it sends its one query and
    changes nothing else. *)
Theorem getSequences_gives_the_columns_back recordType (c : conn B) :
  (∀ cols : list string,
     select_sequences (database c) (recordType +:+ "\_%\_seq") schemaName
       = inr (inr <$> ((λ col, recordType +:+ "_" +:+ col +:+ "_seq") <$> cols)) →
     getSequences recordType c
       = (cols, None,
          asked (QuerySequences (recordType +:+ "\_%\_seq") schemaName) c)) ∧
  (∀ (names : list string) err rest,
     select_sequences (database c) (recordType +:+ "\_%\_seq") schemaName
       = inr ((inr <$> names) ++ inl err :: rest) →
     getSequences recordType c
       = ([], Some err,
          asked (QuerySequences (recordType +:+ "\_%\_seq") schemaName) c)).
Proof.
  split.
  - intros cols Hrows. unfold getSequences. cbn [database asked].
    by rewrite Hrows, scanSequences_named.
  - intros names err rest Hrows. unfold getSequences. cbn [database asked].
    by rewrite Hrows, scanSequences_failed.
Qed.

End BuilderFacts.

(** ** Facts about [GetRecordSchemas] *)

Section ListingFacts.

Context {B : Type} {driver : Driver B} {listing : TableListing B} {naming : Naming}.

Implicit Types (c : conn B) (recordType : string).
Implicit Types (result : gmap string skydb.RecordSchema).

Lemma executed_snoc_query evs q : executed (evs ++ [Queried q]) = executed evs.
Proof. rewrite executed_app. cbn. by rewrite app_nil_r. Qed.

Lemma GetSchema_remoteColumnTypes recordType c :
  GetSchema recordType c = remoteColumnTypes recordType c.
Proof.
  unfold GetSchema. by destruct (remoteColumnTypes recordType c) as [[e|schema] c'].
Qed.

Lemma scanRecordSchemas_success rows result c result' c' :
  scanRecordSchemas rows result c = (inr result', c') →
  ∃ names,
    rows = inr <$> names ∧
    (∀ recordType, is_Some (result' !! recordType) ↔
                   is_Some (result !! recordType) ∨ recordType ∈ names) ∧
    (∀ recordType, recordType ∈ names → is_Some (RecordSchema c' !! recordType)) ∧
    (∀ recordType schema, result' !! recordType = Some schema →
       (result !! recordType = Some schema ∧ recordType ∉ names) ∨
       RecordSchema c' !! recordType = Some schema ∨
       (schema = None ∧ RecordSchema c' !! recordType = Some (Some ∅))) ∧
    (∀ recordType schema, RecordSchema c !! recordType = Some schema →
       RecordSchema c' !! recordType = Some schema) ∧
    database c' = database c ∧
    executed (journal c') = executed (journal c).
Proof.
  revert result c.
  induction rows as [|[e|name] rows IH]; intros result c; cbn.
  - intros [= <- <-]. exists []. split_and!; try done.
    + intros rt. rewrite elem_of_nil. tauto.
    + intros rt Hin. by apply elem_of_nil in Hin.
    + intros rt schema Hrt. left. split; [done|]. apply not_elem_of_nil.
  - intros [=].
  - rewrite GetSchema_remoteColumnTypes.
    destruct (remoteColumnTypes name c) as [[e|s] c1] eqn:Hremote; [intros [=]|].
    intros (names & -> & Hkeys & Hcached & Hvalues & Hkept & Hdb & Hjournal)%IH.
    pose proof (remoteColumnTypes_returns_entry _ _ _ _ Hremote) as Hentry.
    exists (name :: names). split_and!.
    + done.
    + intros rt. rewrite Hkeys, elem_of_cons.
      destruct (decide (name = rt)) as [->|Hne].
      * rewrite lookup_insert_eq. split; [by right; left|eauto].
      * rewrite lookup_insert_ne by done. split; [|intros [?|[?|?]]; eauto; done].
        intros [?|?]; eauto.
    + intros rt [->|Hin]%elem_of_cons; [|by apply Hcached].
      destruct Hentry as [Hentry|[_ Hentry]]; eexists; by eapply Hkept.
    + intros rt schema Hrt.
      destruct (Hvalues rt schema Hrt) as [[Hold Hnotin]|Hcoherent]; [|by right].
      destruct (decide (name = rt)) as [->|Hne].
      * rewrite lookup_insert_eq in Hold. injection Hold as ->. right.
        destruct Hentry as [Hentry|[-> Hentry]]; [left|right; split; [done|]];
          by eapply Hkept.
      * rewrite lookup_insert_ne in Hold by done. left. split; [done|].
        intros [?|?]%elem_of_cons; done.
    + intros rt schema Hrt. apply Hkept.
      by eapply remoteColumnTypes_keeps.
    + rewrite Hdb. by eapply remoteColumnTypes_database.
    + rewrite Hjournal. by eapply remoteColumnTypes_executed.
Qed.

(** X13. When [GetRecordSchemas] succeeds, the record types of its result are
    the tables that the listing named; each of them is cached afterwards, and
    its schema in the result is the cached one (or nil, for a listed table
    that introspection did not find, which is cached as the empty schema);
    no statement was executed and the database is as it was. *)
Theorem GetRecordSchemas_maps_the_listed_tables c result c' :
  GetRecordSchemas c = (inr result, c') →
  ∃ names,
    select_tables (database c) schemaName = inr (inr <$> names) ∧
    (∀ recordType, is_Some (result !! recordType) ↔ recordType ∈ names) ∧
    (∀ recordType schema, result !! recordType = Some schema →
       RecordSchema c' !! recordType = Some schema ∨
       (schema = None ∧ RecordSchema c' !! recordType = Some (Some ∅))) ∧
    database c' = database c ∧
    executed (journal c') = executed (journal c).
Proof.
  unfold GetRecordSchemas. cbn [database asked].
  destruct (select_tables _ _) as [e|rows]; [intros [=]|].
  intros (names & -> & Hkeys & _ & Hvalues & _ & Hdb & Hjournal)%scanRecordSchemas_success.
  cbn [database journal asked] in Hdb, Hjournal.
  rewrite executed_snoc_query in Hjournal.
  exists names. split_and!; [done| | |done..].
  - intros rt. rewrite Hkeys, lookup_empty. split; [intros [[? [=]]|?]; done|eauto].
  - intros rt schema Hrt.
    destruct (Hvalues rt schema Hrt) as [[Hempty _]|?]; [|done].
    by rewrite lookup_empty in Hempty.
Qed.

Lemma scanRecordSchemas_app rows rest result c :
  scanRecordSchemas (rows ++ rest) result c =
  match scanRecordSchemas rows result c with
  | (inl err, c1) => (inl err, c1)
  | (inr result1, c1) => scanRecordSchemas rest result1 c1
  end.
Proof.
  revert result c. induction rows as [|[e|name] rows IH]; intros result c; cbn;
    [done..|].
  destruct (GetSchema name c) as [[e|schema] c1]; [done|]. apply IH.
Qed.

(** X14. [GetRecordSchemas] fails fast: the error of the listing query is
    returned with nothing but that query sent, and the first row that fails,
    to scan or to introspect, ends the call with its error and the
    connection as it is then, whatever rows follow. *)
Theorem GetRecordSchemas_fails_fast c :
  (∀ err, select_tables (database c) schemaName = inl err →
     GetRecordSchemas c = (inl err, asked (QueryTables schemaName) c)) ∧
  (∀ rows rest err c1,
     select_tables (database c) schemaName = inr (rows ++ rest) →
     scanRecordSchemas rows ∅ (asked (QueryTables schemaName) c) = (inl err, c1) →
     GetRecordSchemas c = (inl err, c1)) ∧
  (∀ (names : list string) recordType rest result1 c1 err c2,
     select_tables (database c) schemaName
       = inr ((inr <$> names) ++ inr recordType :: rest) →
     scanRecordSchemas (inr <$> names) ∅ (asked (QueryTables schemaName) c)
       = (inr result1, c1) →
     GetSchema recordType c1 = (inl err, c2) →
     GetRecordSchemas c = (inl err, c2)).
Proof.
  unfold GetRecordSchemas. cbn [database asked]. split_and!.
  - by intros err ->.
  - intros rows rest err c1 -> Hfail. by rewrite scanRecordSchemas_app, Hfail.
  - intros names rt rest result1 c1 err c2 -> Hscan Hfail.
    rewrite scanRecordSchemas_app, Hscan. cbn. by rewrite Hfail.
Qed.

End ListingFacts.

(** ** The code on the example database *)

Module ExampleFacts.

Import Example.

#[local] Existing Instance naming.
#[local] Existing Instance driver.

(** C8 on a record type without table. *)
Lemma missing_table_is_nil_without_error_witness :
  ∃ c', remoteColumnTypes "memo" (connect note_db) = (inr None, c') ∧
        GetSchema "memo" (connect note_db) = (inr None, c').
Proof.
  apply (missing_table_is_nil_without_error "memo" (connect note_db));
    vm_compute; reflexivity.
Defined.

(** C10 on a record type without table. *)
Lemma missing_table_is_cached_as_empty_witness :
  ∃ c1,
    remoteColumnTypes "memo" (connect note_db) = (inr None, c1) ∧
    RecordSchema c1 !! "memo" = Some (Some ∅) ∧
    ∀ c2, RecordSchema c2 !! "memo" = RecordSchema c1 !! "memo" →
          remoteColumnTypes "memo" c2 = (inr (Some ∅), c2).
Proof.
  apply (missing_table_is_cached_as_empty "memo" (connect note_db));
    vm_compute; reflexivity.
Defined.

(** C2 at its input: the object-id lookup fails, the error is returned, and
    the cache has an entry for the record type afterwards; the next
    [GetSchema] answers with the empty schema, and the next [Extend] sends
    CREATE TABLE for the table that is there. *)
Lemma failed_lookup_is_cached :
  let failed := snd (remoteColumnTypes "note" (connect note_db_down)) in
  fst (remoteColumnTypes "note" (connect note_db_down))
    = inl (driver_error "connection reset by peer") ∧
  RecordSchema failed !! "note" = Some (Some ∅) ∧
  fst (GetSchema "note" failed) = inr (Some ∅) ∧
  executed (journal (snd (Extend map_to_list "note" {[ "title" := String_ ]} failed)))
    = [createTableStmt (tableName "note"); CreateTriggerStmt (tableName "note");
       addColumnStmt "note" [("title", String_)]].
Proof. split_and!; vm_compute; reflexivity. Qed.

(** The foreign-key listing fails after the columns were typed: the error is
    returned and the columns are in the cache. *)
Lemma failed_introspection_is_cached_witness :
  ∃ c',
    remoteColumnTypes "note" (connect note_db_guarded)
      = (inl (driver_error "permission denied for information_schema"), c') ∧
    RecordSchema c' !! "note"
      = Some (Some (fst (fst (scanColumns (inr <$> attributes note) ∅ [])))) ∧
    fst (fst (scanColumns (inr <$> attributes note) ∅ [])) !! "title"
      = Some String_.
Proof.
  destruct (failed_introspection_is_cached "note" (connect note_db_guarded)
              (driver_error "permission denied for information_schema")
              (fst (fst (scanColumns (inr <$> attributes note) ∅ []))))
    as (c' & Hfails & Hcache).
  - vm_compute; reflexivity.
  - eapply foreign_key_listing_fails.
    + vm_compute; reflexivity.
    + vm_compute; reflexivity.
    + vm_compute; reflexivity.
    + left. split; vm_compute; reflexivity.
    + vm_compute; reflexivity.
  - exists c'. split; [exact Hfails|]. split; [|vm_compute; reflexivity].
    rewrite Hcache. apply lookup_insert_eq.
Defined.

(** C3 at its input: [title] is text in the table and Number in the desired
    schema; [Extend] returns the conflict and the entry that introspection
    stored is still in the cache. *)
Lemma Extend_conflict_keeps_entry :
  fst (Extend map_to_list "note" {[ "title" := Number_ ]} (connect note_db))
    = Some (conflicting_schema String_ Number_) ∧
  is_Some (RecordSchema
             (snd (Extend map_to_list "note" {[ "title" := Number_ ]}
                     (connect note_db))) !! "note").
Proof. split; [vm_compute; reflexivity|]. vm_compute. eauto. Qed.

Lemma Extend_drops_entry_on_success_only_witness :
  let cached := snd (GetSchema "note" (connect note_db)) in
  RecordSchema
    (snd (Extend map_to_list "note" {[ "title" := String_ ]} cached)) = ∅ ∧
  snd (Extend map_to_list "note" {[ "title" := Number_ ]} cached) = cached ∧
  RecordSchema
    (snd (Extend map_to_list "note" {[ "title" := Number_ ]} cached)) !! "note"
    = RecordSchema cached !! "note".
Proof.
  intros cached.
  destruct (Extend_drops_entry_on_success_only map_to_list "note"
              {[ "title" := String_ ]} cached None
              (snd (Extend map_to_list "note" {[ "title" := String_ ]} cached)))
    as [Hsuccess _]; [vm_compute; reflexivity|].
  destruct (Extend_drops_entry_on_success_only map_to_list "note"
              {[ "title" := Number_ ]} cached
              (Some (conflicting_schema String_ Number_))
              (snd (Extend map_to_list "note" {[ "title" := Number_ ]} cached)))
    as [_ Hconflict]; [vm_compute; reflexivity|].
  destruct (Hconflict (match fst (remoteColumnTypes "note" cached) with
                       | inr remote => remote
                       | inl _ => None
                       end) cached String_ Number_) as [Hsame Hentry];
    [vm_compute; reflexivity|reflexivity|].
  split_and!.
  - rewrite (Hsuccess eq_refl). vm_compute; reflexivity.
  - exact Hsame.
  - by rewrite Hsame.
Defined.


(** C5 at its input: the first [Extend] is served from the cache and
    succeeds without a statement; the second one asks the catalog and adds
    the column. *)
Lemma Extend_again_adds_the_column :
  fst (Extend map_to_list "note" {[ "title" := String_ ]} stale) = None ∧
  executed (journal (snd (Extend map_to_list "note" {[ "title" := String_ ]} stale)))
    = [] ∧
  executed
    (journal
       (snd (Extend map_to_list "note" {[ "title" := String_ ]}
               (snd (Extend map_to_list "note" {[ "title" := String_ ]} stale)))))
    = [addColumnStmt "note" [("title", String_)]].
Proof. split_and!; vm_compute; reflexivity. Qed.

Lemma Extend_again_executes_nothing_witness :
  ∃ c3,
    Extend map_to_list "note" {[ "title" := String_ ]}
      (snd (Extend map_to_list "note" {[ "title" := String_ ]} (connect note_db)))
      = (None, c3) ∧
    executed (journal c3) = [].
Proof.
  destruct (Extend_again_executes_nothing map_to_list map_to_list "note"
              {[ "title" := String_ ]} (connect note_db)
              (snd (Extend map_to_list "note" {[ "title" := String_ ]}
                      (connect note_db))))
    as [_ Hsecond].
  - intros m. reflexivity.
  - vm_compute; reflexivity.
  - set (c1 := snd (Extend map_to_list "note" {[ "title" := String_ ]}
                      (connect note_db))) in *.
    apply (Hsecond (fst (fst (introspect "note" c1))) (snd (introspect "note" c1))).
    + vm_compute; reflexivity.
    + vm_compute. discriminate.
    + intros key to [<- <-]%lookup_singleton_Some.
      exists String_. split; vm_compute; reflexivity.
Defined.

(** C6 at its input: [owner] has a foreign key to _asset and, listed after
    it, one to [user]; the column comes out as a Reference to [user]. *)
Lemma earlier_foreign_key_is_overridden :
  select_foreign_keys blog_db schemaName "photo"
    = inr [inr ("owner", "_asset"); inr ("owner", "user")] ∧
  match fst (GetSchema "photo" (connect blog_db)) with
  | inr (Some typemap) => typemap !! "owner"
  | _ => None
  end = Some (mkFieldType TypeReference "user").
Proof. split; vm_compute; reflexivity. Qed.

Lemma foreign_key_column_is_classified_by_its_last_row_witness :
  match fst (remoteColumnTypes "photo" (connect blog_db)) with
  | inr (Some typemap) => typemap
  | _ => ∅
  end !! "owner" = Some (mkFieldType TypeReference "user").
Proof.
  apply (foreign_key_column_is_classified_by_its_last_row "photo" (connect blog_db)
           _ (snd (remoteColumnTypes "photo" (connect blog_db)))
           [inr ("owner", "_asset")] "owner" "user" []).
  - vm_compute; reflexivity.
  - vm_compute; reflexivity.
  - vm_compute; reflexivity.
  - intros tbl Hin. by apply elem_of_nil in Hin.
Defined.

(** C7 at its input: [author] is an integer column without a sequence and
    with a foreign key; it comes out as a Reference, not as Integer. *)
Lemma integer_foreign_key_is_a_reference :
  select_columns blog_db 16395 = inr (inr <$> reserved ++ [("author", "integer")]) ∧
  select_sequences blog_db "post\_%\_seq" schemaName = inr [] ∧
  match fst (GetSchema "post" (connect blog_db)) with
  | inr (Some typemap) => typemap !! "author"
  | _ => None
  end = Some (mkFieldType TypeReference "user").
Proof. split_and!; vm_compute; reflexivity. Qed.

Lemma integer_column_sequence_classification_witness :
  match fst (remoteColumnTypes "ticket" (connect blog_db)) with
  | inr (Some typemap) => (typemap !! "seq", typemap !! "weight")
  | _ => (None, None)
  end = (Some (mkFieldType TypeSequence ""), Some (mkFieldType skydb.TypeInteger "")).
Proof.
  assert (NoDup native_types) as Hdistinct
    by (apply (bool_decide_unpack _); vm_compute; reflexivity).
  assert (∀ col, (col, "integer") ∈ attributes ticket →
            (inr ("ticket" +:+ "_" +:+ col +:+ "_seq")
               ∈ [inr "ticket_seq_seq" : error + string] →
             match fst (remoteColumnTypes "ticket" (connect blog_db)) with
             | inr (Some typemap) => typemap
             | _ => ∅
             end !! col = Some (mkFieldType TypeSequence "")) ∧
            (NoDup (attributes ticket).*1 →
             (∀ name, inr name ∈ [inr "ticket_seq_seq" : error + string] →
                ∃ x, name = "ticket" +:+ "_" +:+ x +:+ "_seq") →
             inr ("ticket" +:+ "_" +:+ col +:+ "_seq")
               ∉ [inr "ticket_seq_seq" : error + string] →
             match fst (remoteColumnTypes "ticket" (connect blog_db)) with
             | inr (Some typemap) => typemap
             | _ => ∅
             end !! col = Some (mkFieldType skydb.TypeInteger ""))) as Hclass.
  { intros col Hcol.
    apply (integer_column_sequence_classification "ticket" (connect blog_db)
             _ (snd (remoteColumnTypes "ticket" (connect blog_db)))
             16400 (attributes ticket) _ [] col Hdistinct).
    - vm_compute; reflexivity.
    - vm_compute; reflexivity.
    - vm_compute; reflexivity.
    - vm_compute; reflexivity.
    - exact Hcol.
    - vm_compute; reflexivity.
    - vm_compute; reflexivity.
    - intros tbl Hin. by apply elem_of_nil in Hin. }
  destruct (Hclass "seq") as [Hseq _].
  { apply (bool_decide_unpack _). vm_compute; reflexivity. }
  destruct (Hclass "weight") as [_ Hweight].
  { apply (bool_decide_unpack _). vm_compute; reflexivity. }
  specialize (Hseq ltac:(left)).
  assert (NoDup (attributes ticket).*1) as Hnodup
    by (apply (bool_decide_unpack _); vm_compute; reflexivity).
  specialize (Hweight Hnodup).
  revert Hseq Hweight.
  destruct (fst (remoteColumnTypes "ticket" (connect blog_db))) as [e|[typemap|]].
  - intros Hseq. by rewrite lookup_empty in Hseq.
  - intros -> Hweight. rewrite Hweight; [done| |].
    + intros name ->%list_elem_of_singleton%(inj inr). by exists "seq".
    + intros Hin%list_elem_of_singleton%(inj inr). discriminate Hin.
  - intros Hseq. by rewrite lookup_empty in Hseq.
Defined.

(** C9 at its input: two triples, one name. *)
Lemma foreignKeyName_collision :
  foreignKeyName "author_user" "profile" "_id"
    = foreignKeyName "author" "user_profile" "_id" ∧
  ("author_user", "profile", "_id") ≠ ("author", "user_profile", "_id").
Proof. split; [vm_compute; reflexivity | discriminate]. Qed.

Lemma foreignKeyName_injective_without_underscores_witness :
  gostrings.has_underscore "author" = false ∧
  gostrings.has_underscore "user" = false ∧
  foreignKeyName "author" "user" "_id" = "fk_author_user__id" ∧
  ("author", "user", "_id") = ("author", "user", "_id").
Proof.
  split_and!; [reflexivity..|].
  apply (foreignKeyName_injective_without_underscores
           "author" "user" "_id" "author" "user" "_id"); reflexivity.
Defined.

(** C1 at its input: the schema of [note] is cached, [title] is renamed to
    [name], and [GetSchema] still answers with [title] and without [name],
    while the table has [name] and no [title]. *)
Lemma renamed_column_is_not_seen :
  let cached := snd (GetSchema "note" (connect note_db)) in
  let renamed := snd (RenameSchema "note" "title" "name" cached) in
  fst (RenameSchema "note" "title" "name" cached) = None ∧
  match fst (GetSchema "note" renamed) with
  | inr (Some typemap) => (typemap !! "title", typemap !! "name")
  | _ => (None, None)
  end = (Some String_, None) ∧
  match fst (GetSchema "note" (connect (database renamed))) with
  | inr (Some typemap) => (typemap !! "title", typemap !! "name")
  | _ => (None, None)
  end = (None, Some String_).
Proof. split_and!; vm_compute; reflexivity. Qed.

Lemma schema_edits_keep_cache_entry_witness :
  let cached := snd (GetSchema "note" (connect note_db)) in
  ∃ schema,
    RecordSchema cached !! "note" = Some schema ∧
    RecordSchema (snd (RenameSchema "note" "title" "name" cached)) !! "note"
      = Some schema ∧
    RecordSchema (snd (DeleteSchema "note" "title" cached)) !! "note"
      = Some schema.
Proof.
  intros cached.
  destruct (RecordSchema cached !! "note") as [schema|] eqn:Hentry;
    [|vm_compute in Hentry; discriminate Hentry].
  exists schema.
  destruct (schema_edits_keep_cache_entry "note" cached schema Hentry)
    as [Hrename Hdelete].
  split; [done|]. split.
  - apply (Hrename "title" "name"). vm_compute; reflexivity.
  - apply (Hdelete "title"). vm_compute; reflexivity.
Defined.

(** *** The further facts on the example databases *)

#[local] Existing Instance guarded_driver.
#[local] Existing Instance listing.

Lemma introspection_touches_its_own_entry_only_witness :
  let c' := snd (remoteColumnTypes "post" (connect blog_db)) in
  RecordSchema c' !! "photo" = None ∧
  database c' = blog_db ∧
  executed (journal c') = [].
Proof.
  intros c'.
  destruct (introspection_touches_its_own_entry_only "post" (connect blog_db)
              (fst (remoteColumnTypes "post" (connect blog_db))) c')
    as (Hother & _ & Hdb & Hexecuted).
  - vm_compute; reflexivity.
  - split_and!; [|exact Hdb|exact Hexecuted].
    rewrite (Hother "photo") by discriminate. vm_compute; reflexivity.
Defined.

(** After the failed lookup of C2 the next [GetSchema] returns the empty
    schema and no error. *)
Lemma GetSchema_again_is_served_from_the_cache_witness :
  let c1 := snd (GetSchema "note" (connect note_db_down)) in
  fst (GetSchema "note" (connect note_db_down))
    = inl (driver_error "connection reset by peer") ∧
  ∃ schema, GetSchema "note" c1 = (inr schema, c1).
Proof.
  intros c1. split; [vm_compute; reflexivity|].
  destruct (GetSchema_again_is_served_from_the_cache "note" (connect note_db_down)
              (fst (GetSchema "note" (connect note_db_down))) c1)
    as (schema & Hagain & _).
  - vm_compute; reflexivity.
  - by exists schema.
Defined.

Lemma unknown_native_type_fails_introspection_witness :
  ∃ c',
    remoteColumnTypes "legacy" (connect legacy_db)
      = (inl (received_unknown_data_type "bytea" "payload"), c') ∧
    journal c' = [Queried (QueryOid "legacy" "app_test");
                  Queried (QueryColumns 16405)].
Proof.
  destruct (unknown_native_type_fails_introspection "legacy" (connect legacy_db)
              16405 reserved "payload" "bytea" [inr ("size", "integer")])
    as (c' & Hfails & Hjournal).
  - vm_compute; reflexivity.
  - vm_compute; reflexivity.
  - vm_compute; reflexivity.
  - intros k ty Hin.
    repeat (apply elem_of_cons in Hin as [[= -> ->]|Hin]; [vm_compute; eauto|]).
    by apply elem_of_nil in Hin.
  - vm_compute; reflexivity.
  - exists c'. split; [exact Hfails | exact Hjournal].
Defined.

Lemma introspected_fields_are_the_listed_columns_witness :
  match fst (remoteColumnTypes "photo" (connect blog_db)) with
  | inr (Some typemap) => is_Some (typemap !! "owner") ∧ typemap !! "title" = None
  | _ => False
  end.
Proof.
  pose proof (introspected_fields_are_the_listed_columns "photo" (connect blog_db)
                (match fst (remoteColumnTypes "photo" (connect blog_db)) with
                 | inr (Some typemap) => typemap
                 | _ => ∅
                 end)
                (snd (remoteColumnTypes "photo" (connect blog_db)))
                16390 (inr <$> attributes photo) (inr <$> foreign_keys photo))
    as Hfields.
  assert (fst (remoteColumnTypes "photo" (connect blog_db))
          = inr (Some (match fst (remoteColumnTypes "photo" (connect blog_db)) with
                       | inr (Some typemap) => typemap
                       | _ => ∅
                       end))) as Hsome by (vm_compute; reflexivity).
  rewrite Hsome.
  set (typemap := match fst (remoteColumnTypes "photo" (connect blog_db)) with
                  | inr (Some typemap) => typemap
                  | _ => ∅
                  end) in *.
  assert (∀ col, is_Some (typemap !! col) ↔
                 (∃ pqType, inr (col, pqType) ∈ (inr <$> attributes photo
                                                  : list (error + string * string))) ∨
                 (∃ tbl, inr (col, tbl) ∈ (inr <$> foreign_keys photo
                                            : list (error + string * string))))
    as Hiff.
  { apply Hfields; vm_compute; reflexivity. }
  split.
  - apply Hiff. right. exists "user". apply list_elem_of_fmap_2. right. left.
  - vm_compute; reflexivity.
Defined.

(** The reserved column _access of [note] is ACL. *)
Lemma column_is_classified_by_its_native_type_witness :
  match fst (remoteColumnTypes "note" (connect note_db)) with
  | inr (Some typemap) => typemap
  | _ => ∅
  end !! "_access" = Some (mkFieldType TypeACL "").
Proof.
  apply (column_is_classified_by_its_native_type "note" (connect note_db)
           _ (snd (remoteColumnTypes "note" (connect note_db)))
           16385 (attributes note) [] "_access" "jsonb" TypeACL).
  - vm_compute; reflexivity.
  - vm_compute; reflexivity.
  - vm_compute; reflexivity.
  - vm_compute; reflexivity.
  - apply (bool_decide_unpack _). vm_compute; reflexivity.
  - apply (bool_decide_unpack _). vm_compute; reflexivity.
  - vm_compute; reflexivity.
  - discriminate.
  - vm_compute; reflexivity.
  - intros tbl Hin. by apply elem_of_nil in Hin.
Defined.

(** Number is there and Integer is desired, and [body] is not there: one
    ALTER TABLE adds [body]. *)
Lemma Extend_adds_the_missing_columns_in_one_statement_witness :
  executed
    (journal
       (snd (Extend map_to_list "note"
               {[ "title" := String_; "body" := String_ ]} (connect note_db))))
    = [addColumnStmt "note" [("body", String_)]].
Proof.
  destruct (Extend_adds_the_missing_columns_in_one_statement map_to_list "note"
              {[ "title" := String_; "body" := String_ ]} (connect note_db)
              (match fst (remoteColumnTypes "note" (connect note_db)) with
               | inr remote => remote
               | inl _ => None
               end)
              (snd (remoteColumnTypes "note" (connect note_db)))
              (fst (Extend map_to_list "note"
                      {[ "title" := String_; "body" := String_ ]} (connect note_db)))
              (snd (Extend map_to_list "note"
                      {[ "title" := String_; "body" := String_ ]} (connect note_db))))
    as [Hexecuted _].
  - intros m. reflexivity.
  - vm_compute; reflexivity.
  - vm_compute. discriminate.
  - intros key to from Hto Hfrom.
    assert (key = "title" ∨ key = "body") as [->| ->].
    { apply lookup_insert_Some in Hto as [[<- _]|[_ Hto]]; [by left|].
      apply lookup_singleton_Some in Hto as [<- _]. by right. }
    + vm_compute in Hto, Hfrom. injection Hto as <-. injection Hfrom as <-.
      reflexivity.
    + vm_compute in Hfrom. discriminate Hfrom.
  - vm_compute; reflexivity.
  - rewrite Hexecuted. vm_compute; reflexivity.
Defined.

Lemma Extend_creates_the_table_first_witness :
  executed
    (journal
       (snd (Extend map_to_list "memo" {[ "title" := String_ ]} (connect note_db))))
    = [createTableStmt (tableName "memo"); CreateTriggerStmt (tableName "memo");
       addColumnStmt "memo" [("title", String_)]].
Proof.
  rewrite (Extend_creates_the_table_first map_to_list "memo" {[ "title" := String_ ]}
             (connect note_db) None
             (snd (remoteColumnTypes "memo" (connect note_db)))
             (snd (Extend map_to_list "memo" {[ "title" := String_ ]}
                     (connect note_db)))).
  - vm_compute; reflexivity.
  - intros m. reflexivity.
  - vm_compute; reflexivity.
  - reflexivity.
  - vm_compute; reflexivity.
Defined.

(** With a role that may not run statements [Extend] stops at CREATE TABLE;
    with one that may not create triggers it stops at CREATE TRIGGER. *)
Lemma Extend_stops_when_the_table_is_not_created_witness :
  (∃ c', Extend map_to_list "memo" {[ "title" := String_ ]} (mkConn ∅ read_only [])
           = (Some (failed_to_create_table (driver_error "permission denied")), c') ∧
         executed (journal c') = [createTableStmt (tableName "memo")]) ∧
  (∃ c', Extend map_to_list "memo" {[ "title" := String_ ]}
           (mkConn ∅ without_triggers [])
           = (Some (failed_to_create_table
                      (driver_error "function notify_record_change does not exist")),
              c') ∧
         executed (journal c')
           = [createTableStmt (tableName "memo"); CreateTriggerStmt (tableName "memo")]).
Proof.
  split.
  - destruct (Extend_stops_when_the_table_is_not_created map_to_list "memo"
                {[ "title" := String_ ]} (mkConn ∅ read_only []) None
                (snd (remoteColumnTypes "memo" (mkConn ∅ read_only [])))
                read_only (driver_error "permission denied"))
      as [Hcreate _]; [vm_compute; reflexivity|reflexivity|].
    destruct Hcreate as (c' & Hextend & _ & Hexecuted); [vm_compute; reflexivity|].
    by exists c'.
  - destruct (Extend_stops_when_the_table_is_not_created map_to_list "memo"
                {[ "title" := String_ ]} (mkConn ∅ without_triggers []) None
                (snd (remoteColumnTypes "memo" (mkConn ∅ without_triggers [])))
                without_triggers
                (driver_error "function notify_record_change does not exist"))
      as [_ Htrigger]; [vm_compute; reflexivity|reflexivity|].
    destruct (Htrigger without_triggers) as (c' & Hextend & _ & Hexecuted);
      [vm_compute; reflexivity..|].
    by exists c'.
Defined.

Lemma Extend_keeps_the_other_entries_witness :
  let cached := snd (GetSchema "photo" (connect blog_db)) in
  RecordSchema
    (snd (Extend map_to_list "post" {[ "title" := String_ ]} cached)) !! "photo"
    = RecordSchema cached !! "photo".
Proof.
  intros cached.
  apply (Extend_keeps_the_other_entries map_to_list "post" {[ "title" := String_ ]}
           cached
           (fst (Extend map_to_list "post" {[ "title" := String_ ]} cached))).
  - vm_compute; reflexivity.
  - discriminate.
Defined.

(** The tables of [legacy_db] but for _asset and [legacy] list and
    introspect; with [legacy] the listing fails at it. *)
Lemma GetRecordSchemas_maps_the_listed_tables_witness :
  ∃ names,
    select_tables blog_db schemaName = inr (inr <$> names) ∧
    names = ["photo"; "post"; "ticket"] ∧
    executed (journal (snd (GetRecordSchemas (connect blog_db)))) = [].
Proof.
  destruct (GetRecordSchemas_maps_the_listed_tables (connect blog_db)
              (match fst (GetRecordSchemas (connect blog_db)) with
               | inr result => result
               | inl _ => ∅
               end)
              (snd (GetRecordSchemas (connect blog_db))))
    as (names & Hnames & _ & _ & _ & Hexecuted).
  - vm_compute; reflexivity.
  - exists names. split; [exact Hnames|]. split; [|exact Hexecuted].
    assert ((inr (inr <$> ["photo"; "post"; "ticket"]) : Rows string)
            = inr (inr <$> names)) as Hlisted
      by (rewrite <- Hnames; vm_compute; reflexivity).
    apply (inj inr), (inj (fmap inr)) in Hlisted. by symmetry.
Defined.

Lemma GetRecordSchemas_fails_at_the_unknown_type :
  fst (GetRecordSchemas (connect legacy_db))
    = inl (received_unknown_data_type "bytea" "payload") ∧
  select_tables legacy_db schemaName = inr [inr "note"; inr "legacy"].
Proof. split; vm_compute; reflexivity. Qed.

(** The listing of [legacy_db] names [note] and [legacy]; [note] is
    introspected, [legacy] fails, and with it the call. *)
Lemma GetRecordSchemas_fails_fast_witness :
  let listed := asked (QueryTables schemaName) (connect legacy_db) in
  let c1 := snd (scanRecordSchemas [inr "note"] ∅ listed) in
  GetRecordSchemas (connect legacy_db)
    = (inl (received_unknown_data_type "bytea" "payload"),
       snd (GetSchema "legacy" c1)) ∧
  is_Some (RecordSchema (snd (GetRecordSchemas (connect legacy_db))) !! "note").
Proof.
  intros listed c1.
  destruct (GetRecordSchemas_fails_fast (connect legacy_db)) as (_ & _ & Hrow).
  rewrite (Hrow ["note"] "legacy" []
             (match fst (scanRecordSchemas [inr "note"] ∅ listed) with
              | inr result => result
              | inl _ => ∅
              end)
             c1 (received_unknown_data_type "bytea" "payload")
             (snd (GetSchema "legacy" c1))).
  - split; [reflexivity|]. vm_compute. eauto.
  - vm_compute; reflexivity.
  - vm_compute; reflexivity.
  - vm_compute; reflexivity.
Defined.

End ExampleFacts.
